(** * The FHEVM SDK client core: lifecycle, encryption and decryption services

    A shallow embedding of [packages/fhevm-sdk/src]: [types.ts], [client.ts],
    [encryption.ts] and [decryption.ts].  Asynchronous methods are programs of
    a small free monad whose constructors are the effects the TypeScript code
    performs: reads and writes of the fields of the client object and its two
    services, calls that cross into the FHE backend, the signer or the clock,
    and the suspension points introduced by [await].  Programs are run either
    alone to completion or interleaved by a cooperative scheduler. *)

From stdpp Require Import base option list strings gmap.
From Stdlib Require Import ZArith Lia Ascii HexString.

Local Open Scope string_scope.
Local Open Scope list_scope.

(** ** JavaScript values *)

(** The run-time values the SDK manipulates.  Numbers are restricted to the
    integers; objects owned by the outside world (backend instances, sessions,
    signatures, contracts) are opaque references; [VBuiltin] stands for the
    functions and objects every realm provides. *)
Inductive value : Type :=
  | VUndefined
  | VNull
  | VBool (b : bool)
  | VNum (n : Z)
  | VStr (s : string)
  | VObj (id : nat)
  | VBuiltin (name : string).

Global Instance value_eq_dec : EqDecision value.
Proof. solve_decision. Defined.

(** ToBoolean. *)
Definition truthy (v : value) : bool :=
  match v with
  | VUndefined | VNull => false
  | VBool b => b
  | VNum n => negb (Z.eqb n 0)
  | VStr s => negb (bool_decide (s = ""))
  | VObj _ | VBuiltin _ => true
  end.

(** [a || b] *)
Definition js_or (a b : value) : value := if truthy a then a else b.

(** [a !== b] *)
Definition strict_neq (a b : value) : bool := negb (bool_decide (a = b)).

(** The properties every object literal inherits from [Object.prototype]. *)
Definition Object_prototype : gmap string value :=
  list_to_map
    [ ("constructor", VBuiltin "Object");
      ("__proto__", VBuiltin "Object.prototype");
      ("__defineGetter__", VBuiltin "Object.prototype.__defineGetter__");
      ("__defineSetter__", VBuiltin "Object.prototype.__defineSetter__");
      ("__lookupGetter__", VBuiltin "Object.prototype.__lookupGetter__");
      ("__lookupSetter__", VBuiltin "Object.prototype.__lookupSetter__");
      ("hasOwnProperty", VBuiltin "Object.prototype.hasOwnProperty");
      ("isPrototypeOf", VBuiltin "Object.prototype.isPrototypeOf");
      ("propertyIsEnumerable", VBuiltin "Object.prototype.propertyIsEnumerable");
      ("toLocaleString", VBuiltin "Object.prototype.toLocaleString");
      ("toString", VBuiltin "Object.prototype.toString");
      ("valueOf", VBuiltin "Object.prototype.valueOf") ].

(** [obj[key]] for an object literal [obj] with own properties [own]: the own
    property when there is one, else the inherited one, else [undefined]. *)
Definition js_get (own : gmap string value) (key : string) : value :=
  match own !! key with
  | Some v => v
  | None => default VUndefined (Object_prototype !! key)
  end.

(** ** Errors *)

(** Thrown values are error objects: a [name] and a [message]. *)
Record JsError : Type := mkError { err_name : string; err_message : string }.

Global Instance JsError_eq_dec : EqDecision JsError.
Proof. solve_decision. Defined.

(** [new Error(message)] *)
Definition new_Error (message : string) : JsError := mkError "Error" message.

(** [`${error}`], that is [Error.prototype.toString]. *)
Definition error_toString (e : JsError) : string :=
  if bool_decide (err_name e = "") then err_message e
  else if bool_decide (err_message e = "") then err_name e
  else err_name e +:+ ": " +:+ err_message e.

(** How a call or a promise ends. *)
Inductive outcome (A : Type) : Type :=
  | Fulfilled (a : A)
  | Rejected (e : JsError).
Arguments Fulfilled {A} a.
Arguments Rejected {A} e.

(** ** Data model ([types.ts]) *)

(** [FhevmConfig]; the optional fields are [None] when absent. *)
Record FhevmConfig : Type := {
  config_provider : value;
  config_signer : option value;
  config_network : option string;
  config_gatewayUrl : option string;
  config_aclAddress : option string
}.

(** [DecryptionRequest] *)
Record DecryptionRequest : Type := {
  contractAddress : string;
  userAddress : string;
  handle : Z
}.

(** [DecryptionResult] *)
Record DecryptionResult : Type := {
  result_value : value;
  timestamp : value
}.

(** [FhevmClientState] *)
Record FhevmClientState : Type := {
  isInitialized : bool;
  state_network : string;
  state_userAddress : value;
  hasKeys : bool
}.

(** [EncryptOptions]: [contract] is an address or a contract object, of which
    only the [target] property is read. *)
Inductive ContractOrString : Type :=
  | ContractString (address : string)
  | ContractObject (target : string).

Record EncryptOptions : Type := {
  opt_contract : ContractOrString;
  opt_userAddress : string
}.

(** ** The client object and its two services *)

(** The private fields of [EncryptionService]. *)
Record EncryptionService : Type := {
  instance : value;
  enc_initialized : bool
}.

(** The private field of [DecryptionService]. *)
Record DecryptionService : Type := {
  dec_initialized : bool
}.

(** The fields of [FhevmClient].  Both services hold a reference to the client
    that owns them, so the three objects form one store. *)
Record FhevmClient : Type := {
  provider : value;
  signer : option value;
  network : string;
  gatewayUrl : option string;
  aclAddress : option string;
  _isInitialized : bool;
  encryption : EncryptionService;
  decryption : DecryptionService
}.

Definition set_isInitialized (b : bool) (c : FhevmClient) : FhevmClient :=
  {| provider := provider c; signer := signer c; network := network c;
     gatewayUrl := gatewayUrl c; aclAddress := aclAddress c;
     _isInitialized := b;
     encryption := encryption c; decryption := decryption c |}.

Definition set_encryption (e : EncryptionService) (c : FhevmClient) : FhevmClient :=
  {| provider := provider c; signer := signer c; network := network c;
     gatewayUrl := gatewayUrl c; aclAddress := aclAddress c;
     _isInitialized := _isInitialized c;
     encryption := e; decryption := decryption c |}.

Definition set_decryption (d : DecryptionService) (c : FhevmClient) : FhevmClient :=
  {| provider := provider c; signer := signer c; network := network c;
     gatewayUrl := gatewayUrl c; aclAddress := aclAddress c;
     _isInitialized := _isInitialized c;
     encryption := encryption c; decryption := d |}.

(** [this.instance = v] in [EncryptionService] *)
Definition set_instance (v : value) (c : FhevmClient) : FhevmClient :=
  set_encryption {| instance := v; enc_initialized := enc_initialized (encryption c) |} c.

(** [this.initialized = b] in [EncryptionService] *)
Definition set_enc_initialized (b : bool) (c : FhevmClient) : FhevmClient :=
  set_encryption {| instance := instance (encryption c); enc_initialized := b |} c.

(** [this.initialized = b] in [DecryptionService] *)
Definition set_dec_initialized (b : bool) (c : FhevmClient) : FhevmClient :=
  set_decryption {| dec_initialized := b |} c.

(** ** Effects *)

(** Operations that leave the SDK: the dynamic import, the FHE backend and the
    objects it hands out, the signer, the clock. *)
Inductive call : Type :=
  | Import_fhevmjs
  | CreateInstance (chainId networkUrl : value) (gateway acl : option string)
  | Instance_createEncryptedInput (inst : value) (contract user : string)
  | Input_add (input : value) (bits : nat) (v : Z)
  | Input_addBool (input : value) (v : bool)
  | Input_encrypt (input : value)
  | Instance_getPublicKey (inst : value)
  | Instance_createEIP712 (inst : value) (contract user : string)
  | Property (obj : value) (name : string)
  | Signer_signTypedData (sgn domain types message : value)
  | Instance_reencrypt (inst : value) (h : Z) (contract user : string) (signature : value)
  | Contract_method (contract : value) (methodName : string) (args : list value)
  | Date_now.

(** An operation returns a value or throws (a promise fulfils or rejects). *)
Inductive reply : Type :=
  | Returns (v : value)
  | Throws (e : JsError).

(** Programs.  [Call] is an operation that completes within the current turn;
    [Await] is an [await] of an operation, [Yield] an [await] of a promise of
    the SDK's own: at both the running task gives up control. *)
Inductive prog (A : Type) : Type :=
  | Ret (a : A)
  | Throw (e : JsError)
  | Get (k : FhevmClient -> prog A)
  | Put (f : FhevmClient -> FhevmClient) (k : prog A)
  | Call (c : call) (k : reply -> prog A)
  | Await (c : call) (k : reply -> prog A)
  | Yield (k : prog A).
Arguments Ret {A} a.
Arguments Throw {A} e.
Arguments Get {A} k.
Arguments Put {A} f k.
Arguments Call {A} c k.
Arguments Await {A} c k.
Arguments Yield {A} k.

Fixpoint bind {A B : Type} (p : prog A) (f : A -> prog B) : prog B :=
  match p with
  | Ret a => f a
  | Throw e => Throw e
  | Get k => Get (fun c => bind (k c) f)
  | Put g k => Put g (bind k f)
  | Call c k => Call c (fun r => bind (k r) f)
  | Await c k => Await c (fun r => bind (k r) f)
  | Yield k => Yield (bind k f)
  end.

Global Instance prog_ret : MRet prog := @Ret.
Global Instance prog_bind : MBind prog := fun A B f p => bind p f.

(** [try { p } catch (error) { h error }] *)
Fixpoint try_catch {A : Type} (p : prog A) (h : JsError -> prog A) : prog A :=
  match p with
  | Ret a => Ret a
  | Throw e => h e
  | Get k => Get (fun c => try_catch (k c) h)
  | Put g k => Put g (try_catch k h)
  | Call c k => Call c (fun r => try_catch (k r) h)
  | Await c k => Await c (fun r => try_catch (k r) h)
  | Yield k => Yield (try_catch k h)
  end.

Definition of_reply (r : reply) : prog value :=
  match r with
  | Returns v => Ret v
  | Throws e => Throw e
  end.

(** [f(...)] for an outside operation *)
Definition invoke (c : call) : prog value := Call c of_reply.

(** [await f(...)] for an outside operation *)
Definition await (c : call) : prog value := Await c of_reply.

(** [await p] for an asynchronous method [p] of the SDK: [p] runs up to its
    own completion, then the caller resumes in a later turn. *)
Definition await_method {A : Type} (p : prog A) : prog A :=
  try_catch (a ← p; Yield (Ret a)) (fun e => Yield (Throw e)).

Definition read : prog FhevmClient := Get Ret.
Definition write (f : FhevmClient -> FhevmClient) : prog unit := Put f (Ret tt).

(** ** [EncryptionService] ([encryption.ts]) *)
Module Encryption.

Definition chainIds : gmap string value :=
  <["localhost" := VNum 31337]>
    (<["sepolia" := VNum 11155111]> (<["mainnet" := VNum 1]> ∅)).

Definition getChainId (network : string) : value :=
  js_or (js_get chainIds network) (VNum 31337).

Definition urls : gmap string value :=
  <["localhost" := VStr "http://127.0.0.1:8545"]>
    (<["sepolia" := VStr "https://sepolia.infura.io/v3/"]>
       (<["mainnet" := VStr "https://mainnet.infura.io/v3/"]> ∅)).

Definition getNetworkUrl (network : string) : value :=
  js_or (js_get urls network) (VStr "http://127.0.0.1:8545").

(** [createInstance({ chainId, networkUrl, gatewayUrl, aclAddress })] as
    [initialize] issues it. *)
Definition createInstance (client : FhevmClient) : call :=
  let network := network client in
  let chainId := getChainId network in
  CreateInstance chainId (getNetworkUrl network)
    (gatewayUrl client) (aclAddress client).

(** [initialize] *)
Definition initialize : prog unit :=
  this ← read;
  if enc_initialized (encryption this) then Ret tt
  else
    try_catch
      (_ ← await Import_fhevmjs;
       client ← read;
       inst ← await (createInstance client);
       _ ← write (set_instance inst);
       write (set_enc_initialized true))
      (fun error =>
         Throw (new_Error ("Failed to initialize encryption service: "
                           +:+ error_toString error))).

(** [hasKeys] *)
Definition hasKeys : prog bool :=
  this ← read;
  Ret (enc_initialized (encryption this)
       && strict_neq (instance (encryption this)) VNull).

(** [createEncryptedInput] *)
Definition createEncryptedInput (contractAddress userAddress : string) : prog value :=
  this ← read;
  if negb (enc_initialized (encryption this))
     || negb (truthy (instance (encryption this)))
  then Throw (new_Error "Encryption service not initialized")
  else invoke (Instance_createEncryptedInput (instance (encryption this))
                 contractAddress userAddress).

(** [typeof options.contract === 'string' ? options.contract
     : options.contract.target] *)
Definition contract_address (options : EncryptOptions) : string :=
  match opt_contract options with
  | ContractString address => address
  | ContractObject target => target
  end.

(** [encryptU8] *)
Definition encryptU8 (v : Z) (options : EncryptOptions) : prog value :=
  let contractAddress := contract_address options in
  input ← await_method (createEncryptedInput contractAddress (opt_userAddress options));
  _ ← invoke (Input_add input 8 v);
  await (Input_encrypt input).

(** [encryptU16] *)
Definition encryptU16 (v : Z) (options : EncryptOptions) : prog value :=
  let contractAddress := contract_address options in
  input ← await_method (createEncryptedInput contractAddress (opt_userAddress options));
  _ ← invoke (Input_add input 16 v);
  await (Input_encrypt input).

(** [encryptU32] *)
Definition encryptU32 (v : Z) (options : EncryptOptions) : prog value :=
  let contractAddress := contract_address options in
  input ← await_method (createEncryptedInput contractAddress (opt_userAddress options));
  _ ← invoke (Input_add input 32 v);
  await (Input_encrypt input).

(** [encryptU64] *)
Definition encryptU64 (v : Z) (options : EncryptOptions) : prog value :=
  let contractAddress := contract_address options in
  input ← await_method (createEncryptedInput contractAddress (opt_userAddress options));
  _ ← invoke (Input_add input 64 v);
  await (Input_encrypt input).

(** [encryptBool] *)
Definition encryptBool (v : bool) (options : EncryptOptions) : prog value :=
  let contractAddress := contract_address options in
  input ← await_method (createEncryptedInput contractAddress (opt_userAddress options));
  _ ← invoke (Input_addBool input v);
  await (Input_encrypt input).

(** [getPublicKey] *)
Definition getPublicKey : prog value :=
  this ← read;
  if negb (truthy (instance (encryption this))) then Ret VUndefined
  else invoke (Instance_getPublicKey (instance (encryption this))).

(** [dispose] *)
Definition dispose : prog unit :=
  _ ← write (set_instance VNull);
  write (set_enc_initialized false).

End Encryption.

(** ** [DecryptionService] ([decryption.ts]) *)
Module Decryption.

Definition chainIds : gmap string value :=
  <["localhost" := VNum 31337]>
    (<["sepolia" := VNum 11155111]> (<["mainnet" := VNum 1]> ∅)).

Definition getChainId (network : string) : value :=
  js_or (js_get chainIds network) (VNum 31337).

Definition urls : gmap string value :=
  <["localhost" := VStr "http://127.0.0.1:8545"]>
    (<["sepolia" := VStr "https://sepolia.infura.io/v3/"]>
       (<["mainnet" := VStr "https://mainnet.infura.io/v3/"]> ∅)).

Definition getNetworkUrl (network : string) : value :=
  js_or (js_get urls network) (VStr "http://127.0.0.1:8545").

(** [initialize] *)
Definition initialize : prog unit :=
  this ← read;
  if dec_initialized (decryption this) then Ret tt
  else write (set_dec_initialized true).

(** [createInstance({ chainId, networkUrl, gatewayUrl, aclAddress })] as
    [userDecrypt] issues it. *)
Definition createInstance (client : FhevmClient) : call :=
  CreateInstance (getChainId (network client)) (getNetworkUrl (network client))
    (gatewayUrl client) (aclAddress client).

(** [userDecrypt] *)
Definition userDecrypt (request : DecryptionRequest) : prog DecryptionResult :=
  this ← read;
  if negb (dec_initialized (decryption this))
  then Throw (new_Error "Decryption service not initialized")
  else
    match signer this with
    | None => Throw (new_Error "Signer required for user decryption")
    | Some sgn =>
        try_catch
          (_ ← await Import_fhevmjs;
           client ← read;
           inst ← await (createInstance client);
           eip712 ← invoke (Instance_createEIP712 inst
                              (contractAddress request) (userAddress request));
           domain ← invoke (Property eip712 "domain");
           types ← invoke (Property eip712 "types");
           reencrypt ← invoke (Property types "Reencrypt");
           message ← invoke (Property eip712 "message");
           signature ← await (Signer_signTypedData sgn domain reencrypt message);
           decryptedValue ← await (Instance_reencrypt inst (handle request)
                                     (contractAddress request) (userAddress request)
                                     signature);
           now ← invoke Date_now;
           Ret {| result_value := decryptedValue; timestamp := now |})
          (fun error =>
             Throw (new_Error ("Failed to decrypt value: " +:+ error_toString error)))
    end.

(** [publicDecrypt] *)
Definition publicDecrypt (contract : value) (methodName : string) (args : list value)
  : prog DecryptionResult :=
  this ← read;
  if negb (dec_initialized (decryption this))
  then Throw (new_Error "Decryption service not initialized")
  else
    try_catch
      (encryptedValue ← await (Contract_method contract methodName args);
       now ← invoke Date_now;
       Ret {| result_value := encryptedValue; timestamp := now |})
      (fun error =>
         Throw (new_Error ("Failed to decrypt public value: " +:+ error_toString error))).

(** The promises [requests.map(request => this.userDecrypt(request))] hands
    to [Promise.all] in [batchUserDecrypt]. *)
Definition batchUserDecrypt (requests : list DecryptionRequest)
  : list (prog DecryptionResult) :=
  map userDecrypt requests.

(** [dispose] *)
Definition dispose : prog unit :=
  write (set_dec_initialized false).

End Decryption.

(** ** [FhevmClient] ([client.ts]) *)
Module Client.

(** [constructor] *)
Definition new (config : FhevmConfig) : FhevmClient :=
  {| provider := config_provider config;
     signer := config_signer config;
     network := match config_network config with
                | Some n => if bool_decide (n = "") then "localhost" else n
                | None => "localhost"
                end;
     gatewayUrl := config_gatewayUrl config;
     aclAddress := config_aclAddress config;
     _isInitialized := false;
     encryption := {| instance := VUndefined; enc_initialized := false |};
     decryption := {| dec_initialized := false |} |}.

(** [initialize] *)
Definition initialize : prog unit :=
  this ← read;
  if _isInitialized this then Ret tt
  else
    try_catch
      (_ ← await_method Encryption.initialize;
       _ ← await_method Decryption.initialize;
       write (set_isInitialized true))
      (fun error =>
         Throw (new_Error ("Failed to initialize FHEVM client: "
                           +:+ error_toString error))).

(** [getState] *)
Definition getState : prog FhevmClientState :=
  this ← read;
  keys ← Encryption.hasKeys;
  Ret {| isInitialized := _isInitialized this;
         state_network := network this;
         state_userAddress := VUndefined;
         hasKeys := keys |}.

(** [dispose] *)
Definition dispose : prog unit :=
  _ ← Encryption.dispose;
  _ ← Decryption.dispose;
  write (set_isInitialized false).

End Client.



(** ** Running programs *)

(** What the outside world has been asked so far: which task asked, what, and
    the answer it got. *)
Record entry : Type := { who : nat; what : call; answer : reply }.

(** The outside world answers an operation knowing everything that happened
    before it. *)
Definition environment : Type := list entry -> call -> reply.

Record world : Type := { store : FhevmClient; log : list entry }.

Definition update (f : FhevmClient -> FhevmClient) (w : world) : world :=
  {| store := f (store w); log := log w |}.

Definition asked (tid : nat) (c : call) (r : reply) : entry :=
  {| who := tid; what := c; answer := r |}.

Definition record (tid : nat) (c : call) (r : reply) (w : world) : world :=
  {| store := store w; log := log w ++ [asked tid c r] |}.

(** A method call made on its own and awaited: nothing else runs while it is
    suspended. *)
Fixpoint exec {A : Type} (env : environment) (tid : nat) (p : prog A) (w : world)
  : outcome A * world :=
  match p with
  | Ret a => (Fulfilled a, w)
  | Throw e => (Rejected e, w)
  | Get k => exec env tid (k (store w)) w
  | Put f k => exec env tid k (update f w)
  | Call c k => let r := env (log w) c in exec env tid (k r) (record tid c r w)
  | Await c k => let r := env (log w) c in exec env tid (k r) (record tid c r w)
  | Yield k => exec env tid k w
  end.

(** A task of the cooperative scheduler: suspended on an outside operation,
    suspended on a promise of the SDK, settled, or settled with its reaction
    in [Promise.all] already run. *)
Inductive task (A : Type) : Type :=
  | Waiting (c : call) (k : reply -> prog A)
  | Paused (k : prog A)
  | Settled (o : outcome A)
  | Delivered (o : outcome A).
Arguments Waiting {A} c k.
Arguments Paused {A} k.
Arguments Settled {A} o.
Arguments Delivered {A} o.

(** One turn: the task runs until it gives up control or settles. *)
Fixpoint run_turn {A : Type} (env : environment) (tid : nat) (p : prog A) (w : world)
  : task A * world :=
  match p with
  | Ret a => (Settled (Fulfilled a), w)
  | Throw e => (Settled (Rejected e), w)
  | Get k => run_turn env tid (k (store w)) w
  | Put f k => run_turn env tid k (update f w)
  | Call c k => let r := env (log w) c in run_turn env tid (k r) (record tid c r w)
  | Await c k => (Waiting c k, w)
  | Yield k => (Paused k, w)
  end.

(** Calling the asynchronous methods one after the other, in one turn: each
    runs up to its first suspension. *)
Fixpoint spawn {A : Type} (env : environment) (tid : nat) (ps : list (prog A)) (w : world)
  : list (task A) * world :=
  match ps with
  | [] => ([], w)
  | p :: ps =>
      let '(t, w1) := run_turn env tid p w in
      let '(ts, w2) := spawn env (S tid) ps w1 in
      (t :: ts, w2)
  end.

(** [Promise.all] over the tasks: the values array, the count of elements not
    yet fulfilled, and the state of the promise it returned ([None] while
    pending). *)
Record pool (A : Type) : Type := {
  tasks : list (task A);
  now : world;
  values : list (option A);
  remaining : nat;
  promise : option (outcome (list A))
}.
Arguments tasks {A} p.
Arguments now {A} p.
Arguments values {A} p.
Arguments remaining {A} p.
Arguments promise {A} p.

(** Settling a promise that is already settled does nothing. *)
Definition settle {A : Type} (o : outcome A) (p : option (outcome A)) : option (outcome A) :=
  match p with
  | Some o' => Some o'
  | None => Some o
  end.

(** [Promise.all(ps)], the built-in, at the moment it returns: the methods
    have been called in order, and the promise is pending unless there is
    nothing to wait for. *)
Definition Promise_all {A : Type} (env : environment) (ps : list (prog A)) (w : world)
  : pool A :=
  let '(ts, w') := spawn env 0 ps w in
  {| tasks := ts; now := w';
     values := replicate (length ps) None;
     remaining := length ps;
     promise := if bool_decide (length ps = 0) then Some (Fulfilled []) else None |}.

(** The scheduler picks task [i]: a suspended task resumes with the answer of
    the outside world and runs one turn; a settled task has its reaction in
    [Promise.all] run (fulfilment stores the value at the task's index and
    resolves once none remains, rejection rejects). *)
Definition step {A : Type} (env : environment) (s : pool A) (i : nat) : pool A :=
  match tasks s !! i with
  | Some (Waiting c k) =>
      let r := env (log (now s)) c in
      let '(t, w) := run_turn env i (k r) (record i c r (now s)) in
      {| tasks := <[i := t]> (tasks s); now := w;
         values := values s; remaining := remaining s; promise := promise s |}
  | Some (Paused k) =>
      let '(t, w) := run_turn env i k (now s) in
      {| tasks := <[i := t]> (tasks s); now := w;
         values := values s; remaining := remaining s; promise := promise s |}
  | Some (Settled (Fulfilled a)) =>
      let vs := <[i := Some a]> (values s) in
      let n := pred (remaining s) in
      {| tasks := <[i := Delivered (Fulfilled a)]> (tasks s); now := now s;
         values := vs; remaining := n;
         promise := if bool_decide (n = 0)
                    then settle (Fulfilled (omap id vs)) (promise s)
                    else promise s |}
  | Some (Settled (Rejected e)) =>
      {| tasks := <[i := Delivered (Rejected e)]> (tasks s); now := now s;
         values := values s; remaining := remaining s;
         promise := settle (Rejected e) (promise s) |}
  | Some (Delivered _) | None => s
  end.

(** The tasks picked in the order [schedule]. *)
Definition run {A : Type} (env : environment) (s : pool A) (schedule : list nat) : pool A :=
  foldl (step env) s schedule.

Definition delivered {A : Type} (t : task A) : bool :=
  match t with
  | Delivered _ => true
  | _ => false
  end.

(** Every task has settled and [Promise.all] has seen it. *)
Definition quiescent {A : Type} (s : pool A) : bool := forallb delivered (tasks s).

(** [Promise.all] has run its reaction to the end of task [i]. *)
Definition seen {A : Type} (s : pool A) (i : nat) : bool :=
  match tasks s !! i with
  | Some t => delivered t
  | None => false
  end.

(** The outcome of task [i], once it has settled. *)
Definition outcome_of {A : Type} (s : pool A) (i : nat) : option (outcome A) :=
  match tasks s !! i with
  | Some (Settled o) | Some (Delivered o) => Some o
  | _ => None
  end.

Definition is_CreateInstance (e : entry) : bool :=
  match what e with
  | CreateInstance _ _ _ _ => true
  | _ => false
  end.

(** How many backend instances have been constructed. *)
Definition constructions (w : world) : nat :=
  length (List.filter is_CreateInstance (log w)).

(** An outside world in which nothing fails: every operation returns a fresh
    object. *)
Definition env_ok : environment := fun l _ => Returns (VObj (length l)).

Definition sample_config : FhevmConfig :=
  {| config_provider := VObj 1000; config_signer := Some (VObj 1001);
     config_network := Some "sepolia"; config_gatewayUrl := None;
     config_aclAddress := None |}.

Definition fresh (config : FhevmConfig) : world :=
  {| store := Client.new config; log := [] |}.

(** ** Sequences of operations on one client *)

(** The operations an application performs on a client, each awaited before
    the next one starts. *)
Inductive operation : Type :=
  | Initialize
  | Dispose
  | GetState
  | EncryptU32 (v : Z) (options : EncryptOptions)
  | UserDecrypt (request : DecryptionRequest).

Definition fulfilled {A : Type} (r : outcome A * world) : bool * world :=
  match r with
  | (Fulfilled _, w) => (true, w)
  | (Rejected _, w) => (false, w)
  end.

(** Whether the operation succeeded, and the world it leaves. *)
Definition perform (env : environment) (op : operation) (w : world) : bool * world :=
  match op with
  | Initialize => fulfilled (exec env 0 Client.initialize w)
  | Dispose => fulfilled (exec env 0 Client.dispose w)
  | GetState => fulfilled (exec env 0 Client.getState w)
  | EncryptU32 v options => fulfilled (exec env 0 (Encryption.encryptU32 v options) w)
  | UserDecrypt request => fulfilled (exec env 0 (Decryption.userDecrypt request) w)
  end.

(** The operations in order, with a record of which succeeded. *)
Fixpoint perform_all (env : environment) (ops : list operation) (w : world)
  : list (operation * bool) * world :=
  match ops with
  | [] => ([], w)
  | op :: ops =>
      let '(ok, w1) := perform env op w in
      let '(history, w2) := perform_all env ops w1 in
      ((op, ok) :: history, w2)
  end.

(** The client is usable: [initialize] has completed and [dispose] has not
    been called since. *)
Definition Ready (c : FhevmClient) : Prop := _isInitialized c = true.

(** ** The errors of the specification, as the code raises them *)

Definition NotInitializedError : JsError :=
  new_Error "Decryption service not initialized".

Definition SignerRequiredError : JsError :=
  new_Error "Signer required for user decryption".

(** The range of an unsigned 32-bit integer. *)
Definition in_range_u32 (v : Z) : Prop := (0 <= v < 2 ^ 32)%Z.

(** ** Reasoning about one task among others *)

(** [wp tid Q p l]: whenever task [tid], about to run [p] with the log [l],
    fulfils with [a], then [Q a] holds of the log at that time, whatever the
    store contains when it reads it, whatever the outside world answers, and
    whatever other tasks do while it is suspended. *)
Fixpoint wp {A : Type} (tid : nat) (Q : A -> list entry -> Prop) (p : prog A)
  (l : list entry) : Prop :=
  match p with
  | Ret a => Q a l
  | Throw _ => True
  | Get k => forall c, wp tid Q (k c) l
  | Put _ k => wp tid Q k l
  | Call c k => forall r, wp tid Q (k r) (l ++ [asked tid c r])
  | Await c k => forall l2 r, wp tid Q (k r) ((l ++ l2) ++ [asked tid c r])
  | Yield k => forall l2, wp tid Q k (l ++ l2)
  end.

(** The same for a task of the scheduler. *)
Definition task_ok {A : Type} (tid : nat) (Q : A -> list entry -> Prop) (t : task A)
  (l : list entry) : Prop :=
  match t with
  | Waiting c k => forall l2 r, wp tid Q (k r) ((l ++ l2) ++ [asked tid c r])
  | Paused k => forall l2, wp tid Q k (l ++ l2)
  | Settled (Fulfilled a) | Delivered (Fulfilled a) => Q a l
  | Settled (Rejected _) | Delivered (Rejected _) => True
  end.

(** Every task of the pool keeps its guarantee. *)
Definition tasks_ok {A : Type} (Q : nat -> A -> list entry -> Prop) (s : pool A) : Prop :=
  forall i t, tasks s !! i = Some t -> task_ok i (Q i) t (log (now s)).

(** [Q] keeps holding when the log grows. *)
Definition monotone {A : Type} (Q : A -> list entry -> Prop) : Prop :=
  forall a l l2, Q a l -> Q a (l ++ l2).

(** The slot of the values array [Promise.all] has filled for a task. *)
Definition slot {A : Type} (t : task A) : option A :=
  match t with
  | Delivered (Fulfilled a) => Some a
  | _ => None
  end.

Definition open {A : Type} (t : task A) : bool :=
  match t with
  | Delivered (Fulfilled _) => false
  | _ => true
  end.

(** What [Promise.all] maintains. *)
Record pool_inv {A : Type} (n : nat) (s : pool A) : Prop := {
  inv_length : length (tasks s) = n;
  inv_values : values s = slot <$> tasks s;
  inv_remaining : remaining s = length (List.filter open (tasks s));
  inv_promise :
    match promise s with
    | None =>
        remaining s <> 0 /\ forall i e, tasks s !! i <> Some (Delivered (Rejected e))
    | Some (Fulfilled vs) => tasks s = (fun a => Delivered (Fulfilled a)) <$> vs
    | Some (Rejected e) => exists i, tasks s !! i = Some (Delivered (Rejected e))
    end
}.

(** The plaintext of [result] is the answer the gateway gave to task [tid] for
    the handle, contract and user of [request]. *)
Definition decrypted_for (tid : nat) (request : DecryptionRequest)
  (result : DecryptionResult) (l : list entry) : Prop :=
  exists inst signature,
    asked tid
      (Instance_reencrypt inst (handle request) (contractAddress request)
         (userAddress request) signature)
      (Returns (result_value result)) ∈ l.

(** ** Sample data *)

Definition sample_options : EncryptOptions :=
  {| opt_contract := ContractString "0xC0"; opt_userAddress := "0xA1" |}.

Definition no_signer_config : FhevmConfig :=
  {| config_provider := VObj 1000; config_signer := None;
     config_network := None; config_gatewayUrl := None;
     config_aclAddress := None |}.

Definition request_a : DecryptionRequest :=
  {| contractAddress := "0xC0"; userAddress := "0xA1"; handle := 1 |}.
Definition request_b : DecryptionRequest :=
  {| contractAddress := "0xC0"; userAddress := "0xA1"; handle := 2 |}.
Definition request_c : DecryptionRequest :=
  {| contractAddress := "0xC0"; userAddress := "0xA1"; handle := 3 |}.

(** An outside world in which the gateway refuses handle 2 and everything else
    succeeds. *)
Definition env_refuse_b : environment :=
  fun l c =>
    match c with
    | Instance_reencrypt _ 2 _ _ _ => Throws (new_Error "permission denied")
    | Instance_reencrypt _ h _ _ _ => Returns (VNum (h * 100))
    | _ => Returns (VObj (length l))
    end.

(** Round-robin over [n] tasks, [k] rounds. *)
Definition round_robin (n k : nat) : list nat := mjoin (replicate k (seq 0 n)).

(** A world whose client has completed [initialize]. *)
Definition ready_world (config : FhevmConfig) : world :=
  (exec env_ok 0 Client.initialize (fresh config)).2.

(** ** [ContractHelper] ([contract.ts]) *)
Module ContractHelper.

(** What [new Contract(address, abi, signerToUse)] is constructed from. *)
Record NewContract : Type := {
  new_address : string;
  new_abi : value;
  new_runner : value
}.

(** [createContract]; [signer || this.client.getSigner()] *)
Definition createContract (address : string) (abi : value) (sgn : option value)
  : prog NewContract :=
  this ← read;
  let signerToUse := match sgn with
                     | Some s => Some s
                     | None => signer this
                     end in
  match signerToUse with
  | None => Throw (new_Error "Signer required to create contract instance")
  | Some s => Ret {| new_address := address; new_abi := abi; new_runner := s |}
  end.

(** [sendEncryptedTransaction]; [tx.wait()] is the method [wait] of the
    object the contract method returned. *)
Definition sendEncryptedTransaction (contract : value) (methodName : string)
  (encryptedInputs : value) (additionalArgs : list value) : prog value :=
  try_catch
    (handles ← invoke (Property encryptedInputs "handles");
     first ← invoke (Property handles "0");
     inputProof ← invoke (Property encryptedInputs "inputProof");
     tx ← await (Contract_method contract methodName
                   (first :: inputProof :: additionalArgs));
     await (Contract_method tx "wait" []))
    (fun error =>
       Throw (new_Error ("Failed to send encrypted transaction: "
                         +:+ error_toString error))).

(** [callView] *)
Definition callView (contract : value) (methodName : string) (args : list value)
  : prog value :=
  try_catch
    (await (Contract_method contract methodName args))
    (fun error =>
       Throw (new_Error ("Failed to call view function: " +:+ error_toString error))).

End ContractHelper.

(** ** [factory.ts] *)
Module Factory.

(** [createFhevmClient], run in the world of the client it constructs,
    [fresh config]. *)
Definition createFhevmClient : prog FhevmClient :=
  _ ← await_method Client.initialize;
  read.

(** [createFhevmClientSync] *)
Definition createFhevmClientSync (config : FhevmConfig) : FhevmClient :=
  Client.new config.

End Factory.

(** ** [utils.ts] *)
Module Utils.

(** The white space [parseInt] skips, among the characters below 256. *)
Definition is_white_space (c : ascii) : bool :=
  let n := nat_of_ascii c in
  Nat.eqb n 9 || Nat.eqb n 10 || Nat.eqb n 11 || Nat.eqb n 12 || Nat.eqb n 13
  || Nat.eqb n 32 || Nat.eqb n 160.

Fixpoint trim_start (s : string) : string :=
  match s with
  | String c rest => if is_white_space c then trim_start rest else s
  | EmptyString => s
  end.

(** The value of the longest prefix of hexadecimal digits; [None] when there
    is none. *)
Fixpoint hex_prefix (s : string) (acc : option N) : option N :=
  match s with
  | String c rest =>
      match HexString.ascii_to_digit c with
      | Some d => hex_prefix rest (Some (d + 16 * default 0 acc)%N)
      | None => acc
      end
  | EmptyString => acc
  end.

(** [parseInt(s, 16)]; [None] is [NaN]. *)
Definition parseInt16 (s : string) : option Z :=
  let s1 := trim_start s in
  let negative := match s1 with
                  | String c _ => Ascii.eqb c "-"%char
                  | EmptyString => false
                  end in
  let s2 := match s1 with
            | String c rest => if Ascii.eqb c "-"%char || Ascii.eqb c "+"%char then rest else s1
            | EmptyString => s1
            end in
  let s3 := match s2 with
            | String c (String x rest) =>
                if Ascii.eqb c "0"%char && (Ascii.eqb x "x"%char || Ascii.eqb x "X"%char)
                then rest else s2
            | _ => s2
            end in
  match hex_prefix s3 None with
  | None => None
  | Some n => Some (if negative then - Z.of_N n else Z.of_N n)%Z
  end.

(** What storing a number in a [Uint8Array] keeps of it. *)
Definition to_uint8 (n : option Z) : Z :=
  match n with
  | None => 0
  | Some z => z mod 256
  end.

(** [hexToBytes]: the loop runs over [i = 0, 2, 4, ...] while [i < hex.length]
    and stores at [i / 2]; a store outside the array is ignored. *)
Definition hexToBytes (hex : string) : list Z :=
  foldl
    (fun bytes i => <[i / 2 := to_uint8 (parseInt16 (String.substring i 2 hex))]> bytes)
    (replicate (String.length hex / 2) 0%Z)
    ((fun k => 2 * k) <$> seq 0 ((String.length hex + 1) / 2)).

(** [b.toString(16)] for an integer *)
Definition toString16 (b : Z) : string :=
  match b with
  | Z0 => "0"
  | Zpos p => HexString.Raw.of_pos p ""
  | Zneg p => "-" +:+ HexString.Raw.of_pos p ""
  end.

(** [s.padStart(2, '0')] *)
Definition padStart2 (s : string) : string :=
  match String.length s with
  | 0 => "00" +:+ s
  | 1 => "0" +:+ s
  | _ => s
  end.

(** [bytesToHex] *)
Definition bytesToHex (bytes : list Z) : string :=
  String.concat "" (map (fun b => padStart2 (toString16 b)) bytes).

(** An element of a [Uint8Array]. *)
Definition is_byte (b : Z) : Prop := (0 <= b < 256)%Z.

Definition is_lower_hex (c : ascii) : bool :=
  let n := nat_of_ascii c in
  (Nat.leb 48 n && Nat.leb n 57) || (Nat.leb 97 n && Nat.leb n 102).

Fixpoint all_lower_hex (s : string) : bool :=
  match s with
  | String c rest => is_lower_hex c && all_lower_hex rest
  | EmptyString => true
  end.

(** The object [formatError] is given: its [code] and [message]. *)
Record ErrorLike : Type := { code : value; message : value }.

(** [formatError] *)
Definition formatError (error : ErrorLike) : value :=
  if bool_decide (code error = VNum 4001) then VStr "Transaction rejected by user"
  else if bool_decide (code error = VNum (-32603)) then VStr "Internal JSON-RPC error"
  else if truthy (message error) then message error
  else VStr "Unknown error occurred".

End Utils.

(** ** Every method of the client and its services *)

(** A program that never writes to the client object. *)
Fixpoint read_only {A : Type} (p : prog A) : Prop :=
  match p with
  | Ret _ | Throw _ => True
  | Get k => forall c, read_only (k c)
  | Put _ _ => False
  | Call _ k | Await _ k => forall r, read_only (k r)
  | Yield k => read_only k
  end.

(** The public methods of the client, of its two services (reachable as
    [client.encryption] and [client.decryption]) and of the contract helper.
    A batch comes with the schedule under which its requests run. *)
Inductive method : Type :=
  | M_initialize
  | M_dispose
  | M_getState
  | M_encryption_initialize
  | M_encryption_dispose
  | M_hasKeys
  | M_getPublicKey
  | M_createEncryptedInput (contract user : string)
  | M_encryptU8 (v : Z) (options : EncryptOptions)
  | M_encryptU16 (v : Z) (options : EncryptOptions)
  | M_encryptU32 (v : Z) (options : EncryptOptions)
  | M_encryptU64 (v : Z) (options : EncryptOptions)
  | M_encryptBool (v : bool) (options : EncryptOptions)
  | M_decryption_initialize
  | M_decryption_dispose
  | M_userDecrypt (request : DecryptionRequest)
  | M_publicDecrypt (contract : value) (methodName : string) (args : list value)
  | M_batchUserDecrypt (requests : list DecryptionRequest) (schedule : list nat)
  | M_createContract (address : string) (abi : value) (sgn : option value)
  | M_sendEncryptedTransaction (contract : value) (methodName : string)
      (encryptedInputs : value) (additionalArgs : list value)
  | M_callView (contract : value) (methodName : string) (args : list value).

(** The world after the method has been called and awaited. *)
Definition after (env : environment) (w : world) (m : method) : world :=
  match m with
  | M_initialize => (exec env 0 Client.initialize w).2
  | M_dispose => (exec env 0 Client.dispose w).2
  | M_getState => (exec env 0 Client.getState w).2
  | M_encryption_initialize => (exec env 0 Encryption.initialize w).2
  | M_encryption_dispose => (exec env 0 Encryption.dispose w).2
  | M_hasKeys => (exec env 0 Encryption.hasKeys w).2
  | M_getPublicKey => (exec env 0 Encryption.getPublicKey w).2
  | M_createEncryptedInput c u => (exec env 0 (Encryption.createEncryptedInput c u) w).2
  | M_encryptU8 v o => (exec env 0 (Encryption.encryptU8 v o) w).2
  | M_encryptU16 v o => (exec env 0 (Encryption.encryptU16 v o) w).2
  | M_encryptU32 v o => (exec env 0 (Encryption.encryptU32 v o) w).2
  | M_encryptU64 v o => (exec env 0 (Encryption.encryptU64 v o) w).2
  | M_encryptBool v o => (exec env 0 (Encryption.encryptBool v o) w).2
  | M_decryption_initialize => (exec env 0 Decryption.initialize w).2
  | M_decryption_dispose => (exec env 0 Decryption.dispose w).2
  | M_userDecrypt r => (exec env 0 (Decryption.userDecrypt r) w).2
  | M_publicDecrypt c m a => (exec env 0 (Decryption.publicDecrypt c m a) w).2
  | M_batchUserDecrypt rs schedule =>
      now (run env (Promise_all env (Decryption.batchUserDecrypt rs) w) schedule)
  | M_createContract a abi s => (exec env 0 (ContractHelper.createContract a abi s) w).2
  | M_sendEncryptedTransaction c m e a =>
      (exec env 0 (ContractHelper.sendEncryptedTransaction c m e a) w).2
  | M_callView c m a => (exec env 0 (ContractHelper.callView c m a) w).2
  end.

(** The methods that initialize or dispose, of the client or of a service. *)
Definition lifecycle (m : method) : bool :=
  match m with
  | M_initialize | M_dispose
  | M_encryption_initialize | M_encryption_dispose
  | M_decryption_initialize | M_decryption_dispose => true
  | _ => false
  end.

(** Every method but the [initialize] and [dispose] of the services
    themselves: the services are initialized and disposed only through the
    client. *)
Definition client_level (m : method) : bool :=
  match m with
  | M_encryption_initialize | M_encryption_dispose
  | M_decryption_initialize | M_decryption_dispose => false
  | _ => true
  end.

(** The methods called and awaited one after the other. *)
Definition after_all (env : environment) (w : world) (ms : list method) : world :=
  foldl (after env) w ms.

Definition is_import_or_backend (e : entry) : bool :=
  match what e with
  | Contract_method _ _ _ | Date_now => false
  | _ => true
  end.

(** The same for a task of the scheduler. *)
Definition task_read_only {A : Type} (t : task A) : Prop :=
  match t with
  | Waiting _ k => forall r, read_only (k r)
  | Paused k => read_only k
  | Settled _ | Delivered _ => True
  end.

(** What a client constructed from [config] keeps while its methods are
    called one after the other: the configuration it was given, the three
    initialization flags in agreement, and no backend handle while it is not
    initialized. *)
Record consistent (config : FhevmConfig) (c : FhevmClient) : Prop := {
  keeps_provider : provider c = config_provider config;
  keeps_signer : signer c = config_signer config;
  keeps_network : network c = network (Client.new config);
  keeps_gatewayUrl : gatewayUrl c = config_gatewayUrl config;
  keeps_aclAddress : aclAddress c = config_aclAddress config;
  flags_encryption : enc_initialized (encryption c) = _isInitialized c;
  flags_decryption : dec_initialized (decryption c) = _isInitialized c;
  no_handle : _isInitialized c = false -> truthy (instance (encryption c)) = false
}.

(** What a client constructed from [config] keeps whatever public methods are
    called on it: the configuration it was given, and no backend handle while
    its encryption service is not initialized. *)
Record keeps (config : FhevmConfig) (c : FhevmClient) : Prop := {
  kept_provider : provider c = config_provider config;
  kept_signer : signer c = config_signer config;
  kept_network : network c = network (Client.new config);
  kept_gatewayUrl : gatewayUrl c = config_gatewayUrl config;
  kept_aclAddress : aclAddress c = config_aclAddress config;
  kept_no_handle :
    enc_initialized (encryption c) = false -> truthy (instance (encryption c)) = false
}.

(** The five typed encrypt methods and the value each is given. *)
Inductive plaintext : Type :=
  | U8 (v : Z)
  | U16 (v : Z)
  | U32 (v : Z)
  | U64 (v : Z)
  | Bool (v : bool).

Definition encrypt (x : plaintext) (options : EncryptOptions) : prog value :=
  match x with
  | U8 v => Encryption.encryptU8 v options
  | U16 v => Encryption.encryptU16 v options
  | U32 v => Encryption.encryptU32 v options
  | U64 v => Encryption.encryptU64 v options
  | Bool v => Encryption.encryptBool v options
  end.

(** [input.add8(v)], [input.add16(v)], ... for the value. *)
Definition add_call (x : plaintext) (input : value) : call :=
  match x with
  | U8 v => Input_add input 8 v
  | U16 v => Input_add input 16 v
  | U32 v => Input_add input 32 v
  | U64 v => Input_add input 64 v
  | Bool v => Input_addBool input v
  end.


(** The outside world answered the operation with an exception. *)
Definition threw (e : entry) : bool :=
  match answer e with
  | Throws _ => true
  | Returns _ => false
  end.

(** An outside world in which the backend cannot be constructed and
    everything else succeeds. *)
Definition env_down : environment :=
  fun l c =>
    match c with
    | CreateInstance _ _ _ _ => Throws (new_Error "gateway unreachable")
    | _ => Returns (VObj (length l))
    end.

(** ** [retry] ([utils.ts]) *)

(** How [retry] ends: [Returned a] is [return a]; [Exhausted lastError] is
    [throw lastError], where [None] is [undefined], the value of [lastError]
    when no attempt was made. *)
Inductive retried (A : Type) : Type :=
  | Returned (a : A)
  | Exhausted (lastError : option JsError).
Arguments Returned {A} a.
Arguments Exhausted {A} lastError.

(** The loop of [retry] from index [i] on; [n] bounds the iterations left.
    The delay between two attempts is a suspension; the time it takes is not
    modelled. *)
Fixpoint retry_loop {A : Type} (fn : prog A) (maxRetries : Z) (n : nat) (i : Z)
  (lastError : option JsError) : prog (retried A) :=
  match n with
  | 0 => Ret (Exhausted lastError)
  | S n =>
      if (i <? maxRetries)%Z
      then
        try_catch
          (a ← await_method fn; Ret (Returned a))
          (fun error =>
             _ ← (if (i <? maxRetries - 1)%Z then Yield (Ret tt) else Ret tt);
             retry_loop fn maxRetries n (i + 1)%Z (Some error))
      else Ret (Exhausted lastError)
  end.

(** [retry(fn, maxRetries, delay)] *)
Definition retry {A : Type} (fn : prog A) (maxRetries : Z) : prog (retried A) :=
  retry_loop fn maxRetries (Z.to_nat maxRetries) 0%Z None.

(** [fn] called and awaited up to [m] times, until it succeeds. *)
Fixpoint attempts {A : Type} (env : environment) (tid : nat) (fn : prog A) (m : nat)
  (lastError : option JsError) (w : world) : outcome (retried A) * world :=
  match m with
  | 0 => (Fulfilled (Exhausted lastError), w)
  | S m =>
      match exec env tid fn w with
      | (Fulfilled a, w1) => (Fulfilled (Returned a), w1)
      | (Rejected e, w1) => attempts env tid fn m (Some e) w1
      end
  end.

(** An outside world in which the first two contract calls fail and the
    later ones succeed. *)
Definition env_flaky : environment :=
  fun l c =>
    if Nat.ltb (length l) 2 then Throws (new_Error "timeout")
    else Returns (VNum (Z.of_nat (length l))).

(** * Properties *)

(** ** Network resolution *)

Example getChainId_sepolia : Encryption.getChainId "sepolia" = VNum 11155111.
Proof. vm_compute. reflexivity. Qed.

Example getChainId_goerli : Encryption.getChainId "goerli" = VNum 31337.
Proof. vm_compute. reflexivity. Qed.

Lemma Object_prototype_truthy key v :
  Object_prototype !! key = Some v -> truthy v = true.
Proof.
  unfold Object_prototype. cbn [list_to_map foldr uncurry fst snd].
  repeat (rewrite lookup_insert; case_decide; [intros [= <-]; reflexivity|]).
  rewrite lookup_empty. discriminate.
Qed.

(** The three names of the table resolve to their entries. *)
Lemma resolution_known :
  Encryption.getChainId "localhost" = VNum 31337 /\
  Encryption.getChainId "sepolia" = VNum 11155111 /\
  Encryption.getChainId "mainnet" = VNum 1 /\
  Encryption.getNetworkUrl "localhost" = VStr "http://127.0.0.1:8545" /\
  Encryption.getNetworkUrl "sepolia" = VStr "https://sepolia.infura.io/v3/" /\
  Encryption.getNetworkUrl "mainnet" = VStr "https://mainnet.infura.io/v3/".
Proof. repeat split; vm_compute; reflexivity. Qed.

(** A name that is neither in the table nor inherited from [Object.prototype]
    resolves to the localhost entry. *)
Lemma resolution_fallback (network : string) :
  network <> "localhost" -> network <> "sepolia" -> network <> "mainnet" ->
  Object_prototype !! network = None ->
  Encryption.getChainId network = VNum 31337 /\
  Encryption.getNetworkUrl network = VStr "http://127.0.0.1:8545".
Proof.
  intros H1 H2 H3 Hp.
  unfold Encryption.getChainId, Encryption.getNetworkUrl, js_get,
    Encryption.chainIds, Encryption.urls.
  rewrite !lookup_insert_ne, !lookup_empty, Hp by congruence.
  split; reflexivity.
Qed.

(** A name inherited from [Object.prototype] resolves to the inherited
    property. *)
Lemma resolution_inherited (name : string) (v : value) :
  Object_prototype !! name = Some v ->
  Encryption.getChainId name = v /\ Encryption.getNetworkUrl name = v.
Proof.
  intros Hp.
  assert (name <> "localhost" /\ name <> "sepolia" /\ name <> "mainnet") as (H1 & H2 & H3).
  { repeat split; intros ->; vm_compute in Hp; discriminate. }
  unfold Encryption.getChainId, Encryption.getNetworkUrl, js_get,
    Encryption.chainIds, Encryption.urls.
  rewrite !lookup_insert_ne, !lookup_empty, Hp by congruence.
  unfold js_or. cbn. rewrite (Object_prototype_truthy _ _ Hp).
  split; reflexivity.
Qed.

(** A configuration without [network], or with the empty string, is the
    localhost network. *)
Lemma resolution_absent (config : FhevmConfig) :
  config_network config = None \/ config_network config = Some "" ->
  network (Client.new config) = "localhost" /\
  Encryption.getChainId (network (Client.new config)) = VNum 31337 /\
  Encryption.getNetworkUrl (network (Client.new config)) = VStr "http://127.0.0.1:8545".
Proof.
  intros [H|H]; unfold Client.new; cbn [network]; rewrite H;
    repeat split; vm_compute; reflexivity.
Qed.

(** C8.  The fallback to the localhost entry misses the names an object
    literal inherits: for the network string [constructor], which is none of
    localhost, sepolia and mainnet, the chain id passed to the backend is the
    inherited [Object] function and not 31337, and the RPC URL is that same
    function and not the localhost URL. *)
Theorem resolution_of_inherited_name :
  let config := {| config_provider := VObj 1000; config_signer := None;
                   config_network := Some "constructor";
                   config_gatewayUrl := None; config_aclAddress := None |} in
  let name := network (Client.new config) in
  name = "constructor" /\
  Encryption.getChainId name = VBuiltin "Object" /\
  Encryption.getChainId name <> VNum 31337 /\
  Encryption.getNetworkUrl name = VBuiltin "Object" /\
  Encryption.getNetworkUrl name <> VStr "http://127.0.0.1:8545" /\
  Decryption.getChainId name = VBuiltin "Object" /\
  Decryption.getNetworkUrl name = VBuiltin "Object".
Proof. repeat split; try (vm_compute; reflexivity); vm_compute; discriminate. Qed.

(** C10.  The network tables of the two services agree: for every network
    string the encryption and the decryption service resolve the same chain
    id and the same RPC URL, so that on one client the backend instance of
    [initialize] and the one of [userDecrypt] are constructed from the same
    chain configuration. *)
Theorem network_tables_agree (name : string) (client : FhevmClient) :
  Encryption.getChainId name = Decryption.getChainId name /\
  Encryption.getNetworkUrl name = Decryption.getNetworkUrl name /\
  Encryption.createInstance client = Decryption.createInstance client.
Proof.
  unfold Encryption.createInstance, Decryption.createInstance,
    Encryption.getChainId, Decryption.getChainId,
    Encryption.getNetworkUrl, Decryption.getNetworkUrl.
  repeat split; f_equal.
Qed.

(** ** Running one method *)

Lemma exec_bind {A B : Type} env tid (p : prog A) (f : A -> prog B) w :
  exec env tid (p ≫= f) w =
  match exec env tid p w with
  | (Fulfilled a, w1) => exec env tid (f a) w1
  | (Rejected e, w1) => (Rejected e, w1)
  end.
Proof.
  unfold mbind, prog_bind. revert w.
  induction p as [a|e|k IH|g k IH|c k IH|c k IH|k IH]; intros w; cbn; auto.
Qed.

Lemma exec_try_catch {A : Type} env tid (p : prog A) (h : JsError -> prog A) w :
  exec env tid (try_catch p h) w =
  match exec env tid p w with
  | (Fulfilled a, w1) => (Fulfilled a, w1)
  | (Rejected e, w1) => exec env tid (h e) w1
  end.
Proof.
  revert w.
  induction p as [a|e|k IH|g k IH|c k IH|c k IH|k IH]; intros w; cbn; auto.
Qed.

(** Awaiting a method of the SDK changes nothing when nothing else runs. *)
Lemma exec_await_method {A : Type} env tid (p : prog A) w :
  exec env tid (await_method p) w = exec env tid p w.
Proof.
  unfold await_method. rewrite exec_try_catch, exec_bind.
  destruct (exec env tid p w) as [[a|e] w1]; reflexivity.
Qed.

(** The log only grows. *)
Lemma exec_log {A : Type} env tid (p : prog A) w :
  exists l, log (exec env tid p w).2 = log w ++ l.
Proof.
  revert w.
  induction p as [a|e|k IH|g k IH|c k IH|c k IH|k IH]; intros w; cbn;
    try (exists []; rewrite app_nil_r; reflexivity); auto.
  - apply (IH (update g w)).
  - destruct (IH (env (log w) c) (record tid c (env (log w) c) w)) as [l ->].
    cbn. rewrite <- app_assoc. eauto.
  - destruct (IH (env (log w) c) (record tid c (env (log w) c) w)) as [l ->].
    cbn. rewrite <- app_assoc. eauto.
Qed.

(** [EncryptionService.initialize], run alone. *)
Lemma exec_Encryption_initialize env tid w :
  exec env tid Encryption.initialize w =
  if enc_initialized (encryption (store w)) then (Fulfilled tt, w)
  else
    let wrap e := new_Error ("Failed to initialize encryption service: "
                             +:+ error_toString e) in
    let w1 := record tid Import_fhevmjs (env (log w) Import_fhevmjs) w in
    match env (log w) Import_fhevmjs with
    | Throws e => (Rejected (wrap e), w1)
    | Returns _ =>
        let c := Encryption.createInstance (store w) in
        let w2 := record tid c (env (log w1) c) w1 in
        match env (log w1) c with
        | Throws e => (Rejected (wrap e), w2)
        | Returns inst =>
            (Fulfilled tt, update (set_enc_initialized true) (update (set_instance inst) w2))
        end
    end.
Proof.
  unfold Encryption.initialize. cbn.
  destruct (enc_initialized (encryption (store w))); [reflexivity|]. cbn.
  destruct (env (log w) Import_fhevmjs) as [v|e]; [|reflexivity]. cbn.
  destruct (env _ (Encryption.createInstance (store w))) as [inst|e]; reflexivity.
Qed.

(** [FhevmClient.initialize], run alone. *)
Lemma exec_Client_initialize env tid w :
  exec env tid Client.initialize w =
  if _isInitialized (store w) then (Fulfilled tt, w)
  else
    match exec env tid Encryption.initialize w with
    | (Rejected e, w1) =>
        (Rejected (new_Error ("Failed to initialize FHEVM client: "
                              +:+ error_toString e)), w1)
    | (Fulfilled _, w1) =>
        (Fulfilled tt,
         update (set_isInitialized true)
           (if dec_initialized (decryption (store w1)) then w1
            else update (set_dec_initialized true) w1))
    end.
Proof.
  unfold Client.initialize. rewrite exec_bind. cbn [read exec].
  destruct (_isInitialized (store w)); [reflexivity|].
  rewrite exec_try_catch, exec_bind, exec_await_method.
  destruct (exec env tid Encryption.initialize w) as [[[]|e] w1]; [|reflexivity].
  rewrite exec_bind, exec_await_method. cbn.
  destruct (dec_initialized (decryption (store w1))); reflexivity.
Qed.

(** [FhevmClient.dispose] *)
Lemma exec_Client_dispose env tid w :
  exec env tid Client.dispose w =
  (Fulfilled tt,
   update (set_isInitialized false)
     (update (set_dec_initialized false)
        (update (set_enc_initialized false) (update (set_instance VNull) w)))).
Proof. reflexivity. Qed.

(** [FhevmClient.getState] *)
Lemma exec_Client_getState env tid w :
  exec env tid Client.getState w =
  (Fulfilled {| isInitialized := _isInitialized (store w);
                state_network := network (store w);
                state_userAddress := VUndefined;
                hasKeys := enc_initialized (encryption (store w))
                           && strict_neq (instance (encryption (store w))) VNull |},
   w).
Proof. reflexivity. Qed.

(** [DecryptionService.userDecrypt] stops at its first check when the service
    is not initialized. *)
Lemma exec_userDecrypt_not_initialized env tid request w :
  dec_initialized (decryption (store w)) = false ->
  exec env tid (Decryption.userDecrypt request) w = (Rejected NotInitializedError, w).
Proof. intros Hi. unfold Decryption.userDecrypt. cbn. rewrite Hi. reflexivity. Qed.

(** It stops at its second check when there is no signer. *)
Lemma exec_userDecrypt_no_signer env tid request w :
  dec_initialized (decryption (store w)) = true ->
  signer (store w) = None ->
  exec env tid (Decryption.userDecrypt request) w = (Rejected SignerRequiredError, w).
Proof.
  intros Hi Hs. unfold Decryption.userDecrypt. cbn. rewrite Hi, Hs. reflexivity.
Qed.

(** ** The client lifecycle *)

(** A successful [initialize] on a client that was not initialized constructs
    one backend instance and leaves the client ready. *)
Lemma initialize_constructs_one env tid w w1 :
  _isInitialized (store w) = false ->
  enc_initialized (encryption (store w)) = false ->
  exec env tid Client.initialize w = (Fulfilled tt, w1) ->
  Ready (store w1) /\ enc_initialized (encryption (store w1)) = true /\
  constructions w1 = S (constructions w).
Proof.
  intros Hc He. rewrite exec_Client_initialize, Hc, exec_Encryption_initialize, He.
  cbv zeta.
  destruct (env (log w) Import_fhevmjs) as [v|e]; [|discriminate].
  destruct (env _ (Encryption.createInstance (store w))) as [inst|e]; [|discriminate].
  intros [= <-]. unfold Ready, constructions.
  destruct (dec_initialized _); cbn;
    rewrite !List.filter_app, !length_app; cbn; repeat split; lia.
Qed.

(** C7.  Two calls of [initialize] one after the other on a new client, the
    first successful: the backend instance is constructed once, and the second
    call succeeds without touching the client, its services or the outside
    world. *)
Theorem initialize_twice_in_sequence env tid tid2 config w1 :
  exec env tid Client.initialize (fresh config) = (Fulfilled tt, w1) ->
  exec env tid2 Client.initialize w1 = (Fulfilled tt, w1) /\
  constructions w1 = 1 /\
  constructions (exec env tid2 Client.initialize w1).2 = 1.
Proof.
  intros H.
  destruct (initialize_constructs_one env tid (fresh config) w1 eq_refl eq_refl H)
    as (Hr & _ & Hn).
  assert (exec env tid2 Client.initialize w1 = (Fulfilled tt, w1)) as H2.
  { rewrite exec_Client_initialize. unfold Ready in Hr. rewrite Hr. reflexivity. }
  rewrite H2. repeat split; exact Hn.
Qed.

Lemma initialize_twice_in_sequence_witness :
  exec env_ok 0 Client.initialize (ready_world sample_config)
  = (Fulfilled tt, ready_world sample_config) /\
  constructions (ready_world sample_config) = 1 /\
  constructions (exec env_ok 0 Client.initialize (ready_world sample_config)).2 = 1.
Proof.
  apply (initialize_twice_in_sequence env_ok 0 0 sample_config).
  vm_compute. reflexivity.
Defined.

(** C3, as the code has it.  [dispose] never fails, asks nothing of the outside
    world, is idempotent and leaves the client not initialized and without
    keys, whatever happens afterwards; that state is not terminal: a later
    [initialize] on the same client succeeds whenever the import and the
    construction of the backend do, and when it succeeds it has constructed a
    new backend instance and leaves the client ready again. *)
Theorem dispose_resets_the_client env tid w :
  let w1 := (exec env tid Client.dispose w).2 in
  exec env tid Client.dispose w = (Fulfilled tt, w1) /\
  exec env tid Client.dispose w1 = (Fulfilled tt, w1) /\
  log w1 = log w /\
  ~ Ready (store w1) /\
  (exists st, exec env tid Client.getState w1 = (Fulfilled st, w1) /\
              isInitialized st = false /\ hasKeys st = false) /\
  (forall w2,
     exec env tid Client.initialize w1 = (Fulfilled tt, w2) ->
     Ready (store w2) /\ constructions w2 = S (constructions w1)) /\
  (forall module inst,
     env (log w1) Import_fhevmjs = Returns module ->
     env (log w1 ++ [asked tid Import_fhevmjs (Returns module)])
       (Encryption.createInstance (store w1)) = Returns inst ->
     exists w2, exec env tid Client.initialize w1 = (Fulfilled tt, w2)).
Proof.
  intros w1. subst w1. rewrite exec_Client_dispose. cbn [snd].
  set (wd := update (set_isInitialized false)
               (update (set_dec_initialized false)
                  (update (set_enc_initialized false)
                     (update (set_instance VNull) w)))).
  split; [reflexivity|]. split; [reflexivity|]. split; [reflexivity|].
  split; [unfold Ready; cbn; discriminate|].
  split; [eexists; rewrite exec_Client_getState; repeat split|].
  split.
  - intros w2 H.
    apply initialize_constructs_one in H as (Hr & _ & Hn); [|reflexivity..].
    split; assumption.
  - intros module inst Himport Hcreate.
    rewrite exec_Client_initialize.
    change (_isInitialized (store wd)) with false. cbv iota.
    rewrite exec_Encryption_initialize.
    change (enc_initialized (encryption (store wd))) with false. cbv iota zeta.
    rewrite Himport.
    change (log (record tid Import_fhevmjs (Returns module) wd))
      with (log wd ++ [asked tid Import_fhevmjs (Returns module)]).
    rewrite Hcreate. eexists. reflexivity.
Qed.

Lemma dispose_resets_the_client_witness :
  let w1 := (exec env_ok 0 Client.dispose (ready_world sample_config)).2 in
  let w2 := (exec env_ok 0 Client.initialize w1).2 in
  exec env_ok 0 Client.dispose (ready_world sample_config) = (Fulfilled tt, w1) /\
  ~ Ready (store w1) /\
  exec env_ok 0 Client.initialize w1 = (Fulfilled tt, w2) /\
  Ready (store w2) /\
  constructions w2 = S (constructions w1).
Proof.
  intros w1 w2.
  destruct (dispose_resets_the_client env_ok 0 (ready_world sample_config))
    as (H1 & _ & _ & H4 & _ & H6 & H7).
  assert (exec env_ok 0 Client.initialize w1 = (Fulfilled tt, w2)) as Hinit.
  { destruct (H7 (VObj 2) (VObj 3)) as [w3 H3];
      [vm_compute; reflexivity|vm_compute; reflexivity|].
    unfold w2. fold w1 in H3. rewrite H3. reflexivity. }
  destruct (H6 w2 Hinit) as [H8 H9].
  exact (conj H1 (conj H4 (conj Hinit (conj H8 H9)))).
Defined.

(** An outside world in which nothing can be imported: after [dispose] the
    client stays as [dispose] left it, and [initialize] fails. *)
Example dispose_with_failing_import :
  let env : environment := fun _ _ => Throws (new_Error "offline") in
  let w1 := (exec env 0 Client.dispose (ready_world sample_config)).2 in
  exec env 0 Client.dispose (ready_world sample_config) = (Fulfilled tt, w1) /\
  ~ Ready (store w1) /\
  (exec env 0 Client.initialize w1).1
  = Rejected (new_Error "Failed to initialize FHEVM client: Error: Failed to initialize encryption service: Error: offline") /\
  store (exec env 0 Client.initialize w1).2 = store w1.
Proof.
  vm_compute. split; [reflexivity|]. split; [discriminate|].
  split; reflexivity.
Qed.

(** C3, as stated, fails: after [initialize], [dispose], [initialize] on one
    client, all successful, the client is ready and holds keys. *)
Lemma disposed_client_is_ready_again :
  let run := perform_all env_ok [Initialize; Dispose; Initialize] (fresh sample_config) in
  run.1 = [(Initialize, true); (Dispose, true); (Initialize, true)] /\
  Ready (store run.2) /\
  (exec env_ok 0 Client.getState run.2).1
  = Fulfilled {| isInitialized := true; state_network := "sepolia";
                 state_userAddress := VUndefined; hasKeys := true |}.
Proof. repeat split. Qed.

(** ** Decryption without a signer *)

(** C6, as the code has it.  On a client without a signer [userDecrypt]
    rejects before anything is asked of the outside world (no import, no
    backend construction, no signature, no gateway call): with the
    signer-required error when the decryption service is initialized, and with
    the not-initialized error when it is not. *)
Theorem userDecrypt_without_signer env tid request w :
  signer (store w) = None ->
  exec env tid (Decryption.userDecrypt request) w =
  (Rejected (if dec_initialized (decryption (store w))
             then SignerRequiredError else NotInitializedError), w).
Proof.
  intros Hs. destruct (dec_initialized (decryption (store w))) eqn:Hi.
  - apply exec_userDecrypt_no_signer; assumption.
  - apply exec_userDecrypt_not_initialized; assumption.
Qed.

Lemma userDecrypt_without_signer_witness :
  exec env_ok 0 (Decryption.userDecrypt request_a) (ready_world no_signer_config)
  = (Rejected SignerRequiredError, ready_world no_signer_config).
Proof.
  apply (userDecrypt_without_signer env_ok 0 request_a (ready_world no_signer_config)).
  reflexivity.
Defined.

(** C6, as stated, fails: on a new client without a signer, not yet
    initialized, [userDecrypt] rejects with the not-initialized error. *)
Lemma userDecrypt_without_signer_before_initialize :
  signer (store (fresh no_signer_config)) = None /\
  exec env_ok 0 (Decryption.userDecrypt request_a) (fresh no_signer_config)
  = (Rejected NotInitializedError, fresh no_signer_config) /\
  NotInitializedError <> SignerRequiredError.
Proof. repeat split. discriminate. Qed.

(** ** The state of the client *)

(** As long as no [initialize] has succeeded, nothing is initialized. *)
Lemma nothing_initialized env ops : forall w history w1,
  _isInitialized (store w) = false ->
  enc_initialized (encryption (store w)) = false ->
  dec_initialized (decryption (store w)) = false ->
  perform_all env ops w = (history, w1) ->
  (Initialize, true) ∉ history ->
  _isInitialized (store w1) = false /\
  enc_initialized (encryption (store w1)) = false /\
  dec_initialized (decryption (store w1)) = false.
Proof.
  induction ops as [|op ops IH]; intros w history w1 Hc He Hd; cbn [perform_all].
  { intros [= <- <-] _. auto. }
  destruct (perform env op w) as [ok wa] eqn:Hop.
  destruct (perform_all env ops wa) as [h wb] eqn:Hrest.
  intros [= <- <-] Hnot.
  assert (ok = true /\ op = Initialize \/
          _isInitialized (store wa) = false /\
          enc_initialized (encryption (store wa)) = false /\
          dec_initialized (decryption (store wa)) = false) as [[-> ->]|(Hc1 & He1 & Hd1)].
  { destruct op as [| | |v options|request]; cbn [perform] in Hop.
    - rewrite exec_Client_initialize, Hc, exec_Encryption_initialize, He in Hop.
      cbv zeta in Hop.
      destruct (env (log w) Import_fhevmjs) as [x|e];
        [destruct (env _ (Encryption.createInstance (store w))) as [inst|e]|];
        cbn in Hop; injection Hop as <- <-; auto.
    - rewrite exec_Client_dispose in Hop. injection Hop as <- <-. auto.
    - rewrite exec_Client_getState in Hop. injection Hop as <- <-. auto.
    - unfold Encryption.encryptU32 in Hop.
      rewrite exec_bind, exec_await_method in Hop.
      unfold Encryption.createEncryptedInput in Hop. cbn in Hop.
      rewrite He in Hop. cbn in Hop. injection Hop as <- <-. auto.
    - rewrite (exec_userDecrypt_not_initialized _ _ _ _ Hd) in Hop.
      injection Hop as <- <-. auto. }
  - exfalso. apply Hnot. left.
  - apply (IH wa h wb Hc1 He1 Hd1 Hrest).
    intros Hin. apply Hnot. right. exact Hin.
Qed.

(** C9.  [getState] never throws and changes nothing, in every state of the
    client; it reports keys only when the encryption service is initialized
    and its backend handle is not null; and as long as no [initialize] has
    succeeded on the client it reports [isInitialized: false] and
    [hasKeys: false]. *)
Theorem getState_is_a_pure_read env tid w :
  exists st,
    exec env tid Client.getState w = (Fulfilled st, w) /\
    isInitialized st = _isInitialized (store w) /\
    (hasKeys st = true ->
     enc_initialized (encryption (store w)) = true /\
     instance (encryption (store w)) <> VNull) /\
    (forall config ops history,
       perform_all env ops (fresh config) = (history, w) ->
       (Initialize, true) ∉ history ->
       isInitialized st = false /\ hasKeys st = false).
Proof.
  eexists. rewrite exec_Client_getState. split; [reflexivity|]. cbn.
  split; [reflexivity|]. split.
  - intros [H1 H2]%andb_true_iff. split; [exact H1|].
    unfold strict_neq in H2. apply negb_true_iff, bool_decide_eq_false in H2. exact H2.
  - intros config ops history Hrun Hnot.
    destruct (nothing_initialized env ops (fresh config) history w
                eq_refl eq_refl eq_refl Hrun Hnot) as (Hc & He & _).
    rewrite Hc, He. auto.
Qed.

Lemma getState_is_a_pure_read_witness :
  (exists st,
     exec env_ok 0 Client.getState (ready_world sample_config)
     = (Fulfilled st, ready_world sample_config) /\
     hasKeys st = true /\
     instance (encryption (store (ready_world sample_config))) <> VNull) /\
  (exists st,
     exec env_ok 0 Client.getState (fresh sample_config)
     = (Fulfilled st, fresh sample_config) /\
     isInitialized st = false /\ hasKeys st = false).
Proof.
  split.
  - destruct (getState_is_a_pure_read env_ok 0 (ready_world sample_config))
      as (st & Hrun & _ & Hkeys & _).
    exists st. split; [exact Hrun|].
    assert (hasKeys st = true) as Hk.
    { rewrite exec_Client_getState in Hrun. injection Hrun as <-. reflexivity. }
    split; [exact Hk|]. apply (Hkeys Hk).
  - destruct (getState_is_a_pure_read env_ok 0 (fresh sample_config))
      as (st & Hrun & _ & _ & Hnew).
    exists st. split; [exact Hrun|].
    apply (Hnew sample_config [] []); [reflexivity|]. apply not_elem_of_nil.
Defined.

(** ** Encrypting a 32-bit value *)

(** [encryptU32] on an initialized service, run alone: the value goes to the
    backend as it is, and the outcome is the backend's. *)
Lemma exec_encryptU32 env tid v options w :
  enc_initialized (encryption (store w)) = true ->
  truthy (instance (encryption (store w))) = true ->
  exec env tid (Encryption.encryptU32 v options) w =
  let c1 := Instance_createEncryptedInput (instance (encryption (store w)))
              (Encryption.contract_address options) (opt_userAddress options) in
  let w1 := record tid c1 (env (log w) c1) w in
  match env (log w) c1 with
  | Throws e => (Rejected e, w1)
  | Returns input =>
      let c2 := Input_add input 32 v in
      let w2 := record tid c2 (env (log w1) c2) w1 in
      match env (log w1) c2 with
      | Throws e => (Rejected e, w2)
      | Returns _ =>
          let c3 := Input_encrypt input in
          let w3 := record tid c3 (env (log w2) c3) w2 in
          match env (log w2) c3 with
          | Throws e => (Rejected e, w3)
          | Returns sealed => (Fulfilled sealed, w3)
          end
      end
  end.
Proof.
  intros He Hi. unfold Encryption.encryptU32.
  rewrite exec_bind, exec_await_method.
  unfold Encryption.createEncryptedInput. cbn. rewrite He, Hi. cbn.
  destruct (env (log w) _) as [input|e]; [|reflexivity]. cbn.
  destruct (env _ (Input_add input 32 v)) as [x|e]; [|reflexivity]. cbn.
  destruct (env _ (Input_encrypt input)) as [sealed|e]; reflexivity.
Qed.

(** C2.  What the code does with a value outside the range of a 32-bit
    unsigned integer, such as -1 or 2^32: on an initialized client whose
    backend accepts what it is given, [encryptU32] opens a session, passes the
    value to the session's [add32] and seals the session; the call succeeds. *)
Theorem encryptU32_out_of_range_is_sealed (v : Z) :
  ~ in_range_u32 v ->
  exists input sealed w,
    exec env_ok 0 (Encryption.encryptU32 v sample_options) (ready_world sample_config)
    = (Fulfilled sealed, w) /\
    log w = log (ready_world sample_config) ++
      [asked 0 (Instance_createEncryptedInput (VObj 1) "0xC0" "0xA1") (Returns input);
       asked 0 (Input_add input 32 v) (Returns (VObj 3));
       asked 0 (Input_encrypt input) (Returns sealed)].
Proof.
  intros _. do 3 eexists.
  rewrite exec_encryptU32 by reflexivity.
  split; reflexivity.
Qed.

Lemma encryptU32_out_of_range_is_sealed_witness :
  (exists input sealed w,
     exec env_ok 0 (Encryption.encryptU32 (-1) sample_options) (ready_world sample_config)
     = (Fulfilled sealed, w) /\
     log w = log (ready_world sample_config) ++
       [asked 0 (Instance_createEncryptedInput (VObj 1) "0xC0" "0xA1") (Returns input);
        asked 0 (Input_add input 32 (-1)) (Returns (VObj 3));
        asked 0 (Input_encrypt input) (Returns sealed)]) /\
  (exists input sealed w,
     exec env_ok 0 (Encryption.encryptU32 (2 ^ 32) sample_options) (ready_world sample_config)
     = (Fulfilled sealed, w) /\
     log w = log (ready_world sample_config) ++
       [asked 0 (Instance_createEncryptedInput (VObj 1) "0xC0" "0xA1") (Returns input);
        asked 0 (Input_add input 32 (2 ^ 32)) (Returns (VObj 3));
        asked 0 (Input_encrypt input) (Returns sealed)]).
Proof.
  split.
  - apply (encryptU32_out_of_range_is_sealed (-1)). unfold in_range_u32. lia.
  - apply (encryptU32_out_of_range_is_sealed (2 ^ 32)). unfold in_range_u32. lia.
Defined.

(** ** Concurrent initialization *)

(** C1.  What the code does when [initialize] is called twice in one turn, so
    that the second call starts before the first resolves: both calls pass the
    checks of the flags before either sets them, each constructs a backend
    instance, and both succeed. *)
Theorem concurrent_initialize_constructs_twice (config : FhevmConfig) :
  let s := run env_ok
             (Promise_all env_ok [Client.initialize; Client.initialize] (fresh config))
             (round_robin 2 5) in
  quiescent s = true /\
  promise s = Some (Fulfilled [tt; tt]) /\
  constructions (now s) = 2 /\
  List.map who (List.filter is_CreateInstance (log (now s))) = [0; 1].
Proof. destruct config. vm_compute. repeat split. Qed.

(** ** [Promise.all] under the scheduler *)

Section Scheduler.
Context {A : Type} (env : environment).

Lemma run_turn_open tid (p : prog A) w :
  delivered (run_turn env tid p w).1 = false.
Proof.
  revert w.
  induction p as [a|e|k IH|g k IH|c k IH|c k IH|k IH]; intros w; cbn; auto.
Qed.

Lemma run_turn_log tid (p : prog A) w :
  exists l, log (run_turn env tid p w).2 = log w ++ l.
Proof.
  revert w.
  induction p as [a|e|k IH|g k IH|c k IH|c k IH|k IH]; intros w; cbn;
    try (exists []; rewrite app_nil_r; reflexivity); auto.
  - apply (IH (update g w)).
  - destruct (IH (env (log w) c) (record tid c (env (log w) c) w)) as [l ->].
    cbn. rewrite <- app_assoc. eauto.
Qed.

Lemma spawn_open (ps : list (prog A)) : forall tid w,
  length (spawn env tid ps w).1 = length ps /\
  Forall (fun t => delivered t = false) (spawn env tid ps w).1.
Proof.
  induction ps as [|p ps IH]; intros tid w; cbn [spawn].
  { split; [reflexivity|constructor]. }
  pose proof (run_turn_open tid p w) as Hp.
  destruct (run_turn env tid p w) as [t w1].
  specialize (IH (S tid) w1). destruct (spawn env (S tid) ps w1) as [ts w2].
  cbn in *. destruct IH as [IH1 IH2]. split; [congruence|].
  constructor; assumption.
Qed.

Lemma undelivered_slot (t : task A) : delivered t = false -> slot t = None.
Proof. destruct t as [| |o|o]; try reflexivity. discriminate. Qed.

Lemma undelivered_open (t : task A) : delivered t = false -> open t = true.
Proof. destruct t as [| |o|o]; try reflexivity. discriminate. Qed.

Lemma filter_insert_same {B : Type} (f : B -> bool) (l : list B) : forall i x y,
  l !! i = Some x -> f y = f x ->
  length (List.filter f (<[i := y]> l)) = length (List.filter f l).
Proof.
  induction l as [|z l IH]; intros [|i] x y Hx Hf; try discriminate.
  - injection Hx as ->. change (<[0 := y]> (x :: l)) with (y :: l).
    cbn [List.filter]. rewrite Hf. destruct (f x); reflexivity.
  - change (<[S i := y]> (z :: l)) with (z :: <[i := y]> l).
    change ((z :: l) !! S i) with (l !! i) in Hx.
    cbn [List.filter]. specialize (IH i x y Hx Hf).
    destruct (f z); cbn [length]; rewrite IH; reflexivity.
Qed.

Lemma filter_lookup_pos {B : Type} (f : B -> bool) (l : list B) : forall i x,
  l !! i = Some x -> f x = true -> length (List.filter f l) <> 0.
Proof.
  induction l as [|z l IH]; intros [|i] x Hx Hfx; try discriminate.
  - injection Hx as ->. cbn [List.filter]. rewrite Hfx. discriminate.
  - change ((z :: l) !! S i) with (l !! i) in Hx.
    cbn [List.filter]. destruct (f z); [discriminate|]. apply (IH i x Hx Hfx).
Qed.

Lemma filter_insert_drop {B : Type} (f : B -> bool) (l : list B) : forall i x y,
  l !! i = Some x -> f x = true -> f y = false ->
  length (List.filter f (<[i := y]> l)) = pred (length (List.filter f l)).
Proof.
  induction l as [|z l IH]; intros [|i] x y Hx Hfx Hfy; try discriminate.
  - injection Hx as ->. change (<[0 := y]> (x :: l)) with (y :: l).
    cbn [List.filter]. rewrite Hfx, Hfy. reflexivity.
  - change (<[S i := y]> (z :: l)) with (z :: <[i := y]> l).
    change ((z :: l) !! S i) with (l !! i) in Hx.
    cbn [List.filter]. specialize (IH i x y Hx Hfx Hfy).
    pose proof (filter_lookup_pos f l i x Hx Hfx).
    destruct (f z); cbn [length]; rewrite IH; [lia|reflexivity].
Qed.

Lemma all_closed (l : list (task A)) :
  length (List.filter open l) = 0 ->
  l = (fun a => Delivered (Fulfilled a)) <$> omap id (slot <$> l).
Proof.
  induction l as [|t l IH]; [reflexivity|]. cbn [List.filter].
  destruct t as [c k|k|o|[a|e]]; cbn; try discriminate.
  intros H. f_equal. apply IH. exact H.
Qed.

(** A task that [Promise.all] has not seen is replaced by another such. *)
Lemma pool_inv_replace n (s : pool A) i (t0 t : task A) w :
  pool_inv n s ->
  tasks s !! i = Some t0 -> delivered t0 = false -> delivered t = false ->
  pool_inv n {| tasks := <[i := t]> (tasks s); now := w; values := values s;
                remaining := remaining s; promise := promise s |}.
Proof.
  intros [Hl Hv Hr Hp] Hi H0 Ht. split; cbn.
  - rewrite length_insert. exact Hl.
  - rewrite list_fmap_insert, (undelivered_slot t Ht), Hv.
    symmetry. apply list_insert_id.
    rewrite list_lookup_fmap, Hi. cbn. rewrite (undelivered_slot t0 H0). reflexivity.
  - rewrite Hr. symmetry. apply (filter_insert_same _ _ i t0 t Hi).
    rewrite !undelivered_open; auto.
  - destruct (promise s) as [[vs|e]|].
    + rewrite Hp, list_lookup_fmap in Hi.
      destruct (vs !! i); cbn in Hi; [|discriminate].
      injection Hi as <-. discriminate.
    + destruct Hp as [j Hj]. exists j.
      destruct (decide (i = j)) as [->|Hne].
      * rewrite Hi in Hj. injection Hj as ->. discriminate.
      * rewrite list_lookup_insert_ne; assumption.
    + destruct Hp as [Hn Hd]. split; [exact Hn|]. intros j e Hj.
      destruct (decide (i = j)) as [->|Hne].
      * rewrite list_lookup_insert_eq in Hj by (eapply lookup_lt_Some; eauto).
        injection Hj as ->. discriminate.
      * rewrite list_lookup_insert_ne in Hj by assumption. eapply Hd; eauto.
Qed.

(** [Promise.all] starts in order. *)
Lemma Promise_all_inv (ps : list (prog A)) w :
  pool_inv (length ps) (Promise_all env ps w).
Proof.
  unfold Promise_all.
  destruct (spawn_open ps 0 w) as [Hlen Hopen].
  destruct (spawn env 0 ps w) as [ts w1]. cbn [fst] in *.
  assert (slot <$> ts = replicate (length ts) None /\
          length (List.filter open ts) = length ts) as [Hs Ho].
  { clear Hlen. induction Hopen as [|t ts Ht _ [IH1 IH2]]; [split; reflexivity|].
    cbn. rewrite (undelivered_slot t Ht), (undelivered_open t Ht), IH1. cbn.
    rewrite IH2. split; reflexivity. }
  split; cbn.
  - exact Hlen.
  - rewrite Hs, Hlen. reflexivity.
  - rewrite Ho, Hlen. reflexivity.
  - case_bool_decide as Hn.
    + destruct ts; [reflexivity|]. cbn in Hlen. lia.
    + split; [exact Hn|]. intros i e Hi.
      rewrite Forall_lookup in Hopen. specialize (Hopen i _ Hi). discriminate.
Qed.

(** Every step of the scheduler keeps it in order. *)
Lemma step_inv n (s : pool A) i : pool_inv n s -> pool_inv n (step env s i).
Proof.
  intros Hinv. unfold step.
  destruct (tasks s !! i) as [[c k|k|[a|e]|o]|] eqn:Hi; try exact Hinv.
  - pose proof (run_turn_open i (k (env (log (now s)) c))
                  (record i c (env (log (now s)) c) (now s))) as Ht.
    destruct (run_turn env i _ _) as [t w].
    apply (pool_inv_replace n s i _ t w Hinv Hi); [reflexivity|exact Ht].
  - pose proof (run_turn_open i k (now s)) as Ht.
    destruct (run_turn env i k (now s)) as [t w].
    apply (pool_inv_replace n s i _ t w Hinv Hi); [reflexivity|exact Ht].
  - destruct Hinv as [Hl Hv Hr Hp].
    assert (length (List.filter open (<[i := Delivered (Fulfilled a)]> (tasks s)))
            = pred (remaining s)) as Hr2.
    { rewrite Hr. apply (filter_insert_drop _ _ i _ _ Hi); reflexivity. }
    split; cbn.
    + rewrite length_insert. exact Hl.
    + rewrite list_fmap_insert, Hv. reflexivity.
    + rewrite Hr2. reflexivity.
    + assert (forall vs, tasks s <> (fun a => Delivered (Fulfilled a)) <$> vs) as Hno.
      { intros vs Heq. rewrite Heq, list_lookup_fmap in Hi.
        destruct (vs !! i); cbn in Hi; discriminate. }
      assert (forall e, (exists j, tasks s !! j = Some (Delivered (Rejected e))) ->
              exists j, <[i := Delivered (Fulfilled a)]> (tasks s) !! j
                        = Some (Delivered (Rejected e))) as Hrej.
      { intros e [j Hj]. exists j.
        destruct (decide (i = j)) as [->|Hne]; [congruence|].
        rewrite list_lookup_insert_ne; assumption. }
      assert (forall j e, <[i := Delivered (Fulfilled a)]> (tasks s) !! j
                          = Some (Delivered (Rejected e)) ->
              tasks s !! j = Some (Delivered (Rejected e))) as Hback.
      { intros j e Hj. destruct (decide (i = j)) as [->|Hne].
        - rewrite list_lookup_insert_eq in Hj by (eapply lookup_lt_Some; eauto).
          discriminate.
        - rewrite list_lookup_insert_ne in Hj; assumption. }
      case_bool_decide as Hn.
      * destruct (promise s) as [[vs|e]|]; cbn.
        -- destruct (Hno vs Hp).
        -- apply Hrej, Hp.
        -- rewrite Hv.
           change (Some a) with (slot (Delivered (Fulfilled a))).
           rewrite <- list_fmap_insert.
           apply all_closed. rewrite Hr2. exact Hn.
      * destruct (promise s) as [[vs|e]|].
        -- destruct (Hno vs Hp).
        -- apply Hrej, Hp.
        -- destruct Hp as [_ Hd]. split; [exact Hn|].
           intros j e Hj. apply (Hd j e), Hback, Hj.
  - destruct Hinv as [Hl Hv Hr Hp].
    assert (i < length (tasks s)) as Hlt by (eapply lookup_lt_Some; eauto).
    split; cbn.
    + rewrite length_insert. exact Hl.
    + rewrite list_fmap_insert, Hv. cbn. symmetry. apply list_insert_id.
      rewrite list_lookup_fmap, Hi. reflexivity.
    + rewrite Hr. symmetry. apply (filter_insert_same _ _ i _ _ Hi). reflexivity.
    + destruct (promise s) as [[vs|e2]|]; cbn.
      * rewrite Hp, list_lookup_fmap in Hi. destruct (vs !! i); discriminate.
      * destruct Hp as [j Hj]. exists j.
        destruct (decide (i = j)) as [->|Hne]; [congruence|].
        rewrite list_lookup_insert_ne; assumption.
      * exists i. apply list_lookup_insert_eq. exact Hlt.
Qed.

Lemma run_inv n (schedule : list nat) : forall s : pool A,
  pool_inv n s -> pool_inv n (run env s schedule).
Proof.
  induction schedule as [|i schedule IH]; intros s Hs; [exact Hs|].
  apply (IH (step env s i)), step_inv, Hs.
Qed.

Lemma run_cons (s : pool A) i (schedule : list nat) :
  run env s (i :: schedule) = run env (step env s i) schedule.
Proof. reflexivity. Qed.

Lemma step_waiting (s : pool A) i c k :
  tasks s !! i = Some (Waiting c k) ->
  step env s i =
  let r := env (log (now s)) c in
  {| tasks := <[i := (run_turn env i (k r) (record i c r (now s))).1]> (tasks s);
     now := (run_turn env i (k r) (record i c r (now s))).2;
     values := values s; remaining := remaining s; promise := promise s |}.
Proof.
  intros H. unfold step. rewrite H. cbv zeta.
  destruct (run_turn env i _ _) as [t w]. reflexivity.
Qed.

Lemma step_paused (s : pool A) i k :
  tasks s !! i = Some (Paused k) ->
  step env s i =
  {| tasks := <[i := (run_turn env i k (now s)).1]> (tasks s);
     now := (run_turn env i k (now s)).2;
     values := values s; remaining := remaining s; promise := promise s |}.
Proof.
  intros H. unfold step. rewrite H.
  destruct (run_turn env i k (now s)) as [t w]. reflexivity.
Qed.

Lemma step_settled (s : pool A) i o :
  tasks s !! i = Some (Settled o) ->
  tasks (step env s i) = <[i := Delivered o]> (tasks s).
Proof. intros H. unfold step. rewrite H. destruct o; reflexivity. Qed.

(** Once settled, a task is seen by [Promise.all] in one more step. *)
Lemma settled_is_seen (s : pool A) i o :
  tasks s !! i = Some (Settled o) ->
  seen (step env s i) i = true /\
  (forall j, j <> i -> tasks (step env s i) !! j = tasks s !! j) /\
  length (tasks (step env s i)) = length (tasks s).
Proof.
  intros H. unfold seen. rewrite (step_settled s i o H).
  rewrite list_lookup_insert_eq by (eapply lookup_lt_Some, H).
  split; [reflexivity|]. split; [|apply length_insert].
  intros j Hj. apply list_lookup_insert_ne. auto.
Qed.

(** Running a task on its own until [Promise.all] has seen it takes finitely
    many turns and leaves the other tasks as they are. *)
Lemma prog_settles (p : prog A) : forall i w (ts : list (task A)) vs n o,
  i < length ts ->
  exists k,
    let s1 := run env {| tasks := <[i := (run_turn env i p w).1]> ts;
                         now := (run_turn env i p w).2;
                         values := vs; remaining := n; promise := o |}
                (replicate k i) in
    seen s1 i = true /\
    (forall j, j <> i -> tasks s1 !! j = ts !! j) /\
    length (tasks s1) = length ts.
Proof.
  assert (forall o0 i w (ts : list (task A)) vs n o,
            i < length ts ->
            let s1 := step env {| tasks := <[i := Settled o0]> ts; now := w;
                                  values := vs; remaining := n; promise := o |} i in
            seen s1 i = true /\
            (forall j, j <> i -> tasks s1 !! j = ts !! j) /\
            length (tasks s1) = length ts) as Hend.
  { intros o0 i w ts vs n o Hi s1.
    destruct (settled_is_seen
                {| tasks := <[i := Settled o0]> ts; now := w;
                   values := vs; remaining := n; promise := o |} i o0)
      as (H1 & H2 & H3).
    { apply list_lookup_insert_eq, Hi. }
    cbn [tasks] in H2, H3. rewrite length_insert in H3. subst s1.
    split; [exact H1|]. split; [|exact H3].
    intros j Hj. rewrite (H2 j Hj). apply list_lookup_insert_ne. auto. }
  induction p as [a|e|k IH|g k IH|c k IH|c k IH|k IH]; intros i w ts vs n o Hi;
    cbn [run_turn fst snd].
  - exists 1. apply (Hend (Fulfilled a) i w ts vs n o Hi).
  - exists 1. apply (Hend (Rejected e) i w ts vs n o Hi).
  - apply (IH (store w) i w ts vs n o Hi).
  - apply (IH i (update g w) ts vs n o Hi).
  - apply (IH (env (log w) c) i (record i c (env (log w) c) w) ts vs n o Hi).
  - destruct (IH (env (log w) c) i (record i c (env (log w) c) w) ts vs n o Hi)
      as [m Hm].
    exists (S m). cbn [replicate]. rewrite run_cons.
    rewrite (step_waiting _ i c k) by (apply list_lookup_insert_eq, Hi).
    cbn [tasks now values remaining promise]. cbv zeta.
    rewrite list_insert_insert_eq. exact Hm.
  - destruct (IH i w ts vs n o Hi) as [m Hm].
    exists (S m). cbn [replicate]. rewrite run_cons.
    rewrite (step_paused _ i k) by (apply list_lookup_insert_eq, Hi).
    cbn [tasks now values remaining promise].
    rewrite list_insert_insert_eq. exact Hm.
Qed.

Lemma task_settles (s : pool A) i :
  i < length (tasks s) ->
  exists k,
    let s1 := run env s (replicate k i) in
    seen s1 i = true /\
    (forall j, j <> i -> tasks s1 !! j = tasks s !! j) /\
    length (tasks s1) = length (tasks s).
Proof.
  intros Hi. destruct (lookup_lt_is_Some_2 _ _ Hi) as [t Ht].
  destruct t as [c k|k|o|o].
  - destruct (prog_settles (k (env (log (now s)) c)) i
                (record i c (env (log (now s)) c) (now s)) (tasks s)
                (values s) (remaining s) (promise s) Hi) as [m Hm].
    exists (S m). cbn [replicate]. rewrite run_cons.
    rewrite (step_waiting s i c k Ht). exact Hm.
  - destruct (prog_settles k i (now s) (tasks s)
                (values s) (remaining s) (promise s) Hi) as [m Hm].
    exists (S m). cbn [replicate]. rewrite run_cons.
    rewrite (step_paused s i k Ht). exact Hm.
  - exists 1. apply (settled_is_seen s i o Ht).
  - exists 0. cbn. unfold seen. rewrite Ht. auto.
Qed.

Lemma run_app (s : pool A) (l1 l2 : list nat) :
  run env s (l1 ++ l2) = run env (run env s l1) l2.
Proof. apply foldl_app. Qed.

(** From every state the scheduler can bring all tasks to their end. *)
Lemma pool_settles (s : pool A) :
  exists schedule, quiescent (run env s schedule) = true.
Proof.
  assert (forall k, k <= length (tasks s) ->
          exists schedule,
            length (tasks (run env s schedule)) = length (tasks s) /\
            forall j, j < k -> seen (run env s schedule) j = true) as H.
  { induction k as [|k IH]; intros Hk.
    { exists []. split; [reflexivity|]. intros j Hj. lia. }
    destruct IH as (l1 & Hlen & Hseen); [lia|].
    destruct (task_settles (run env s l1) k) as (m & Hk1 & Hothers & Hlen2); [lia|].
    cbv zeta in *. exists (l1 ++ replicate m k). rewrite run_app.
    split; [congruence|]. intros j Hj.
    destruct (decide (j = k)) as [->|Hne]; [exact Hk1|].
    unfold seen. rewrite (Hothers j Hne). apply Hseen. lia. }
  destruct (H (length (tasks s)) (le_n _)) as (schedule & Hlen & Hseen).
  exists schedule. unfold quiescent. apply forallb_forall.
  intros t [j Hj]%list_elem_of_In%list_elem_of_lookup.
  specialize (Hseen j). unfold seen in Hseen. rewrite Hj in Hseen.
  apply Hseen. rewrite <- Hlen. eapply lookup_lt_Some, Hj.
Qed.

End Scheduler.

(** ** What a task guarantees among other tasks *)

Section Guarantee.
Context {A : Type} (env : environment).
Context (Q : nat -> A -> list entry -> Prop).
Hypothesis Q_monotone : forall tid, monotone (Q tid).

Lemma task_ok_grows tid (t : task A) l l2 :
  task_ok tid (Q tid) t l -> task_ok tid (Q tid) t (l ++ l2).
Proof.
  destruct t as [c k|k|[a|e]|[a|e]]; cbn; intros H; auto.
  - intros l3 r. rewrite <- (app_assoc l l2 l3). apply H.
  - intros l3. rewrite <- (app_assoc l l2 l3). apply H.
  - apply Q_monotone, H.
  - apply Q_monotone, H.
Qed.

Lemma run_turn_ok tid (p : prog A) : forall w,
  wp tid (Q tid) p (log w) ->
  task_ok tid (Q tid) (run_turn env tid p w).1 (log (run_turn env tid p w).2).
Proof.
  induction p as [a|e|k IH|g k IH|c k IH|c k IH|k IH]; intros w H; cbn in *; auto.
Qed.

Lemma spawn_ok (ps : list (prog A)) : forall tid w,
  (forall j p, ps !! j = Some p -> forall l, wp (tid + j) (Q (tid + j)) p l) ->
  (exists l, log (spawn env tid ps w).2 = log w ++ l) /\
  forall j t, (spawn env tid ps w).1 !! j = Some t ->
              task_ok (tid + j) (Q (tid + j)) t (log (spawn env tid ps w).2).
Proof.
  induction ps as [|p ps IH]; intros tid w Hwp; cbn [spawn].
  { split; [exists []; rewrite app_nil_r; reflexivity|]. intros j t [=]. }
  pose proof (run_turn_ok tid p w) as Hp.
  destruct (run_turn_log env tid p w) as [l1 Hl1].
  destruct (run_turn env tid p w) as [t1 w1]. cbn [fst snd] in *.
  destruct (IH (S tid) w1) as [[l2 Hl2] Hts].
  { intros j q Hq l. replace (S tid + j) with (tid + S j) by lia.
    apply (Hwp (S j) q Hq). }
  destruct (spawn env (S tid) ps w1) as [ts w2]. cbn [fst snd] in *.
  split.
  - exists (l1 ++ l2). rewrite Hl2, Hl1, app_assoc. reflexivity.
  - intros [|j] t Ht.
    + injection Ht as <-. rewrite Hl2. apply task_ok_grows.
      replace (tid + 0) with tid by lia. apply Hp.
      specialize (Hwp 0 p eq_refl (log w)).
      replace (tid + 0) with tid in Hwp by lia. exact Hwp.
    + replace (tid + S j) with (S tid + j) by lia. apply (Hts j t Ht).
Qed.

Lemma Promise_all_ok (ps : list (prog A)) w :
  (forall j p, ps !! j = Some p -> forall l, wp j (Q j) p l) ->
  tasks_ok Q (Promise_all env ps w).
Proof.
  intros Hwp. unfold Promise_all, tasks_ok.
  destruct (spawn_ok ps 0 w Hwp) as [_ Hts].
  destruct (spawn env 0 ps w) as [ts w1]. cbn in *. exact Hts.
Qed.

(** The tasks other than [i] keep their guarantee when the log grows; task
    [i] is replaced. *)
Lemma tasks_ok_replace (s : pool A) i (t : task A) w vs n o l :
  tasks_ok Q s -> log w = log (now s) ++ l ->
  task_ok i (Q i) t (log w) ->
  tasks_ok Q {| tasks := <[i := t]> (tasks s); now := w; values := vs;
              remaining := n; promise := o |}.
Proof.
  intros Hs Hl Ht j tj Hj. cbn in *.
  apply list_lookup_insert_Some in Hj as [(<- & <- & _)|(Hne & Hj)].
  - exact Ht.
  - rewrite Hl. apply task_ok_grows, Hs, Hj.
Qed.

Lemma step_ok (s : pool A) i : tasks_ok Q s -> tasks_ok Q (step env s i).
Proof.
  intros Hs. unfold step.
  destruct (tasks s !! i) as [[c k|k|[a|e]|o]|] eqn:Hi; try exact Hs.
  - pose proof (Hs i _ Hi) as Hk. cbn in Hk.
    set (r := env (log (now s)) c) in *.
    pose proof (run_turn_ok i (k r) (record i c r (now s))) as Ht.
    destruct (run_turn_log env i (k r) (record i c r (now s))) as [l Hl].
    destruct (run_turn env i (k r) (record i c r (now s))) as [t w].
    cbn [fst snd] in *.
    apply (tasks_ok_replace s i t w _ _ _ ([asked i c r] ++ l) Hs).
    + rewrite Hl. cbn. rewrite <- app_assoc. reflexivity.
    + apply Ht. cbn. specialize (Hk [] r). rewrite app_nil_r in Hk. exact Hk.
  - pose proof (Hs i _ Hi) as Hk. cbn in Hk.
    pose proof (run_turn_ok i k (now s)) as Ht.
    destruct (run_turn_log env i k (now s)) as [l Hl].
    destruct (run_turn env i k (now s)) as [t w]. cbn [fst snd] in *.
    apply (tasks_ok_replace s i t w _ _ _ l Hs Hl).
    apply Ht. specialize (Hk []). rewrite app_nil_r in Hk. exact Hk.
  - apply (tasks_ok_replace s i _ (now s) _ _ _ [] Hs).
    + rewrite app_nil_r. reflexivity.
    + apply (Hs i _ Hi).
  - apply (tasks_ok_replace s i _ (now s) _ _ _ [] Hs).
    + rewrite app_nil_r. reflexivity.
    + exact I.
Qed.

Lemma run_ok (schedule : list nat) : forall s : pool A,
  tasks_ok Q s -> tasks_ok Q (run env s schedule).
Proof.
  induction schedule as [|i schedule IH]; intros s Hs; [exact Hs|].
  apply (IH (step env s i)), step_ok, Hs.
Qed.

End Guarantee.

(** ** Batch decryption *)

Lemma decrypted_for_monotone tid request : monotone (decrypted_for tid request).
Proof.
  intros result l l2 (inst & signature & H). exists inst, signature.
  apply elem_of_app. left. exact H.
Qed.

(** Whatever else runs, a [userDecrypt] that fulfils returns the plaintext the
    gateway gave for its own request. *)
Lemma userDecrypt_wp tid request l :
  wp tid (decrypted_for tid request) (Decryption.userDecrypt request) l.
Proof.
  unfold Decryption.userDecrypt. cbn. intros this.
  destruct (dec_initialized (decryption this)); cbn; [|exact I].
  destruct (signer this) as [sgn|]; cbn; [|exact I].
  intros l1 [x|e]; cbn; [|exact I]. intros client.
  intros l2 [inst|e]; cbn; [|exact I].
  intros [eip712|e]; cbn; [|exact I].
  intros [domain|e]; cbn; [|exact I].
  intros [types|e]; cbn; [|exact I].
  intros [reencrypt|e]; cbn; [|exact I].
  intros [message|e]; cbn; [|exact I].
  intros l3 [signature|e]; cbn; [|exact I].
  intros l4 [decryptedValue|e]; cbn; [|exact I].
  intros [now|e]; cbn; [|exact I].
  exists inst, signature. cbn.
  apply elem_of_app. left. apply elem_of_app. right. apply list_elem_of_singleton.
  reflexivity.
Qed.

Lemma wp_weaken {A : Type} tid (Q Q2 : A -> list entry -> Prop) (p : prog A) :
  (forall a l, Q a l -> Q2 a l) -> forall l, wp tid Q p l -> wp tid Q2 p l.
Proof.
  intros HQ.
  induction p as [a|e|k IH|g k IH|c k IH|c k IH|k IH]; intros l H; cbn in *; auto.
Qed.

Lemma batchUserDecrypt_inv env w requests schedule :
  pool_inv (length requests)
    (run env (Promise_all env (Decryption.batchUserDecrypt requests) w) schedule).
Proof.
  apply run_inv.
  replace (length requests) with (length (Decryption.batchUserDecrypt requests))
    by apply length_map.
  apply Promise_all_inv.
Qed.

Lemma outcome_of_rejected {A : Type} (s : pool A) i e :
  outcome_of s i = Some (Rejected e) ->
  tasks s !! i = Some (Settled (Rejected e)) \/
  tasks s !! i = Some (Delivered (Rejected e)).
Proof.
  unfold outcome_of.
  destruct (tasks s !! i) as [[c k|k|o|o]|]; intros [=]; subst; auto.
Qed.

(** The outcome of a task does not change once it has settled. *)
Lemma outcome_of_step {A : Type} env (s : pool A) i j o :
  outcome_of s i = Some o -> outcome_of (step env s j) i = Some o.
Proof.
  unfold outcome_of. intros Hi.
  destruct (tasks s !! j) as [t|] eqn:Hj; [|unfold step; rewrite Hj; exact Hi].
  destruct (decide (j = i)) as [->|Hne].
  - rewrite Hj in Hi. destruct t as [c k|k|o2|o2]; try discriminate.
    + rewrite (step_settled env s i o2 Hj).
      rewrite list_lookup_insert_eq by (eapply lookup_lt_Some, Hj). exact Hi.
    + unfold step. rewrite Hj, Hj. exact Hi.
  - destruct t as [c k|k|o2|o2].
    + rewrite (step_waiting env s j c k Hj). cbn.
      rewrite list_lookup_insert_ne by exact Hne. exact Hi.
    + rewrite (step_paused env s j k Hj). cbn.
      rewrite list_lookup_insert_ne by exact Hne. exact Hi.
    + rewrite (step_settled env s j o2 Hj).
      rewrite list_lookup_insert_ne by exact Hne. exact Hi.
    + unfold step. rewrite Hj. exact Hi.
Qed.

Lemma outcome_of_run {A : Type} env (schedule : list nat) : forall (s : pool A) i o,
  outcome_of s i = Some o -> outcome_of (run env s schedule) i = Some o.
Proof.
  induction schedule as [|j schedule IH]; intros s i o H; [exact H|].
  rewrite run_cons. apply IH, outcome_of_step, H.
Qed.

(** Under [Promise.all], a rejected task excludes fulfilment, and rejects the
    whole once its rejection has been seen. *)
Lemma rejected_task_rejects_all {A : Type} n (s : pool A) i e :
  pool_inv n s ->
  outcome_of s i = Some (Rejected e) ->
  (forall results, promise s <> Some (Fulfilled results)) /\
  (seen s i = true \/ quiescent s = true ->
   exists e2 j, promise s = Some (Rejected e2) /\ outcome_of s j = Some (Rejected e2)).
Proof.
  intros [_ _ _ Hp] Hi.
  assert (forall results, promise s <> Some (Fulfilled results)) as Hno.
  { intros results Heq. rewrite Heq in Hp.
    apply outcome_of_rejected in Hi. rewrite Hp, list_lookup_fmap in Hi.
    destruct (results !! i); cbn in Hi; destruct Hi as [[=]|[=]]. }
  split; [exact Hno|]. intros Hq.
  assert (tasks s !! i = Some (Delivered (Rejected e))) as Hd.
  { apply outcome_of_rejected in Hi as [Hi|Hi]; [exfalso|exact Hi].
    destruct Hq as [Hq|Hq].
    - unfold seen in Hq. rewrite Hi in Hq. discriminate.
    - unfold quiescent in Hq. rewrite forallb_forall in Hq.
      specialize (Hq (Settled (Rejected e))). cbn in Hq.
      assert (false = true) as Hx; [|discriminate].
      apply Hq, list_elem_of_In, list_elem_of_lookup. eauto. }
  destruct (promise s) as [[results|e2]|] eqn:Hps.
  - destruct (Hno results eq_refl).
  - destruct Hp as [j Hj]. exists e2, j. split; [reflexivity|].
    unfold outcome_of. rewrite Hj. reflexivity.
  - destruct Hp as [_ Hnone]. destruct (Hnone i e Hd).
Qed.

(** C4.  [batchUserDecrypt] is all-or-nothing: under every schedule and every
    behaviour of the outside world, once the decryption of one request has
    failed the batch never fulfils, with any list of results; it is rejected,
    with the error of a failed request, as soon as [Promise.all] has seen that
    failure, and at the latest when all requests have settled, which the
    scheduler can always bring about. *)
Theorem batchUserDecrypt_all_or_nothing env w requests schedule i e :
  let s := run env (Promise_all env (Decryption.batchUserDecrypt requests) w) schedule in
  outcome_of s i = Some (Rejected e) ->
  (forall results, promise s <> Some (Fulfilled results)) /\
  (seen s i = true \/ quiescent s = true ->
   exists e2 j, promise s = Some (Rejected e2) /\ outcome_of s j = Some (Rejected e2)) /\
  (exists more,
     quiescent (run env s more) = true /\
     exists e2, promise (run env s more) = Some (Rejected e2)).
Proof.
  intros s Hi.
  pose proof (batchUserDecrypt_inv env w requests schedule) as Hinv. fold s in Hinv.
  destruct (rejected_task_rejects_all _ s i e Hinv Hi) as [Hno Hrej].
  split; [exact Hno|]. split; [exact Hrej|].
  destruct (pool_settles env s) as [more Hq]. exists more. split; [exact Hq|].
  destruct (rejected_task_rejects_all (length requests) (run env s more) i e) as [_ H2].
  - apply run_inv, Hinv.
  - apply outcome_of_run, Hi.
  - destruct (H2 (or_intror Hq)) as (e2 & _ & He2 & _). exists e2. exact He2.
Qed.

Lemma batchUserDecrypt_all_or_nothing_witness :
  let s := run env_refuse_b
             (Promise_all env_refuse_b
                (Decryption.batchUserDecrypt [request_a; request_b; request_c])
                (ready_world sample_config))
             (round_robin 3 6) in
  outcome_of s 0
  = Some (Fulfilled {| result_value := VNum 100; timestamp := VObj 27 |}) /\
  (forall results, promise s <> Some (Fulfilled results)) /\
  exists e2 j, promise s = Some (Rejected e2) /\ outcome_of s j = Some (Rejected e2).
Proof.
  intros s. split; [vm_compute; reflexivity|].
  destruct (batchUserDecrypt_all_or_nothing env_refuse_b (ready_world sample_config)
              [request_a; request_b; request_c] (round_robin 3 6) 1
              (new_Error "Failed to decrypt value: Error: permission denied"))
    as [H1 H2].
  - vm_compute. reflexivity.
  - destruct H2 as [H2 _]. split; [exact H1|]. apply H2. right. vm_compute. reflexivity.
Defined.

(** C5.  When [batchUserDecrypt] fulfils, under every schedule and every
    behaviour of the outside world, the list of results is as long as the list
    of requests, and the result at each index is the one of the [userDecrypt]
    started for the request at that index: its plaintext is what the gateway
    answered for the handle, contract and user of that request. *)
Theorem batchUserDecrypt_keeps_order env w requests schedule results :
  let s := run env (Promise_all env (Decryption.batchUserDecrypt requests) w) schedule in
  promise s = Some (Fulfilled results) ->
  length results = length requests /\
  forall i request result,
    requests !! i = Some request -> results !! i = Some result ->
    outcome_of s i = Some (Fulfilled result) /\
    decrypted_for i request result (log (now s)).
Proof.
  intros s Hps.
  destruct (batchUserDecrypt_inv env w requests schedule) as [Hl _ _ Hp].
  fold s in Hl, Hp. rewrite Hps in Hp.
  split. { rewrite <- Hl, Hp, length_fmap. reflexivity. }
  intros i request result Hreq Hres.
  assert (tasks s !! i = Some (Delivered (Fulfilled result))) as Hi.
  { rewrite Hp, list_lookup_fmap, Hres. reflexivity. }
  split. { unfold outcome_of. rewrite Hi. reflexivity. }
  set (Q := fun (j : nat) (r : DecryptionResult) (l : list entry) =>
              forall q, requests !! j = Some q -> decrypted_for j q r l).
  assert (tasks_ok Q s) as Hok.
  { apply run_ok.
    - intros tid r l l2 H q Hq. apply decrypted_for_monotone, H, Hq.
    - apply Promise_all_ok.
      + intros tid r l l2 H q Hq. apply decrypted_for_monotone, H, Hq.
      + intros j p Hj l. unfold Decryption.batchUserDecrypt in Hj.
        change (map Decryption.userDecrypt requests)
          with (Decryption.userDecrypt <$> requests) in Hj.
        rewrite list_lookup_fmap in Hj.
        destruct (requests !! j) as [q|] eqn:Hq; [|discriminate].
        injection Hj as <-.
        apply (wp_weaken j (decrypted_for j q)); [|apply userDecrypt_wp].
        intros r l0 H q2 Hq2. rewrite Hq in Hq2. injection Hq2 as <-. exact H. }
  apply (Hok i _ Hi request Hreq).
Qed.

Lemma batchUserDecrypt_keeps_order_witness :
  let s := run env_refuse_b
             (Promise_all env_refuse_b
                (Decryption.batchUserDecrypt [request_a; request_c])
                (ready_world sample_config))
             [1; 1; 1; 1; 1; 1; 0; 0; 0; 0; 0; 0] in
  let results := [ {| result_value := VNum 100; timestamp := VObj 21 |};
                   {| result_value := VNum 300; timestamp := VObj 11 |} ] in
  promise s = Some (Fulfilled results) /\
  length results = 2 /\
  decrypted_for 0 request_a {| result_value := VNum 100; timestamp := VObj 21 |}
    (log (now s)) /\
  decrypted_for 1 request_c {| result_value := VNum 300; timestamp := VObj 11 |}
    (log (now s)).
Proof.
  intros s results.
  assert (promise s = Some (Fulfilled results)) as Hps by (vm_compute; reflexivity).
  destruct (batchUserDecrypt_keeps_order env_refuse_b (ready_world sample_config)
              [request_a; request_c] [1; 1; 1; 1; 1; 1; 0; 0; 0; 0; 0; 0] results Hps)
    as [Hlen Hres].
  split; [exact Hps|]. split; [exact Hlen|]. split.
  - apply (Hres 0 request_a); reflexivity.
  - apply (Hres 1 request_c); reflexivity.
Defined.


(** * The rest of the SDK *)

(** ** [hexToBytes] and [bytesToHex] *)

Lemma string_pairs_ind (P : string -> Prop) :
  P "" -> (forall a, P (String a "")) ->
  (forall a b s, P s -> P (String a (String b s))) ->
  forall s, P s.
Proof.
  intros H0 H1 H2.
  assert (forall s, P s /\ forall a, P (String a s)) as H.
  { induction s as [|c s [IH1 IH2]]; split; auto. }
  intros s. apply H.
Qed.

Lemma hexToBytes_shift a b rest (js : list nat) : forall (x : Z) (bytes : list Z),
  foldl (fun bytes i =>
           <[i / 2 := Utils.to_uint8
                        (Utils.parseInt16
                           (String.substring i 2 (String a (String b rest))))]> bytes)
    (x :: bytes) ((fun k => 2 * k) <$> (S <$> js))
  = x :: foldl (fun bytes i =>
                  <[i / 2 := Utils.to_uint8
                               (Utils.parseInt16 (String.substring i 2 rest))]> bytes)
           bytes ((fun k => 2 * k) <$> js).
Proof.
  induction js as [|j js IH]; intros x bytes; [reflexivity|].
  cbn [fmap list_fmap foldl].
  replace (2 * S j) with (S (S (2 * j))) by lia.
  replace (S (S (2 * j)) / 2) with (S (2 * j / 2)).
  2:{ change (S (S (2 * j))) with (1 * 2 + 2 * j) at 1.
      rewrite Nat.add_comm, Nat.div_add by lia. lia. }
  cbn [String.substring]. apply IH.
Qed.

Lemma hexToBytes_nil : Utils.hexToBytes "" = [].
Proof. reflexivity. Qed.

(** A last character without a partner is dropped. *)
Lemma hexToBytes_single a : Utils.hexToBytes (String a "") = [].
Proof. reflexivity. Qed.

Lemma hexToBytes_pair a b rest :
  Utils.hexToBytes (String a (String b rest))
  = Utils.to_uint8 (Utils.parseInt16 (String a (String b ""))) :: Utils.hexToBytes rest.
Proof.
  unfold Utils.hexToBytes. cbn [String.length].
  replace (S (S (String.length rest)) / 2) with (S (String.length rest / 2)).
  2:{ change (S (S (String.length rest))) with (1 * 2 + String.length rest).
      rewrite Nat.add_comm, Nat.div_add by lia. lia. }
  replace ((S (S (String.length rest)) + 1) / 2) with (S ((String.length rest + 1) / 2)).
  2:{ replace (S (S (String.length rest)) + 1) with (String.length rest + 1 + 1 * 2) by lia.
      rewrite Nat.div_add by lia. lia. }
  cbn [seq fmap list_fmap foldl replicate].
  rewrite <- fmap_S_seq.
  change (2 * 0 / 2) with 0. change (2 * 0) with 0.
  change (String.substring 0 2 (String a (String b rest)))
    with (String a (String b (String.substring 0 0 rest))).
  replace (String.substring 0 0 rest) with "" by (destruct rest; reflexivity).
  change (<[0 := ?v]> (?z :: ?l)) with (v :: l).
  apply hexToBytes_shift.
Qed.

Lemma append_empty_r (x : string) : x +:+ "" = x.
Proof.
  induction x as [|c x IH]; [reflexivity|].
  change (String c x +:+ "") with (String c (x +:+ "")). rewrite IH. reflexivity.
Qed.

Lemma concat_empty_cons (x : string) (l : list string) :
  String.concat "" (x :: l) = x +:+ String.concat "" l.
Proof.
  destruct l as [|y l]; cbn [String.concat].
  - symmetry. apply append_empty_r.
  - reflexivity.
Qed.

(** The two characters [bytesToHex] writes for a byte, and what [hexToBytes]
    reads back from them. *)
Lemma byte_hex (b : Z) :
  Utils.is_byte b ->
  exists x y,
    Utils.padStart2 (Utils.toString16 b) = String x (String y "") /\
    Utils.is_lower_hex x = true /\ Utils.is_lower_hex y = true /\
    Utils.to_uint8 (Utils.parseInt16 (String x (String y ""))) = b.
Proof.
  intros [Hlo Hhi].
  assert (forallb
            (fun n =>
               match Utils.padStart2 (Utils.toString16 (Z.of_nat n)) with
               | String x (String y EmptyString) =>
                   Utils.is_lower_hex x && Utils.is_lower_hex y
                   && Z.eqb (Utils.to_uint8 (Utils.parseInt16 (String x (String y ""))))
                        (Z.of_nat n)
               | _ => false
               end) (seq 0 256) = true) as Hall by (vm_compute; reflexivity).
  rewrite forallb_forall in Hall.
  specialize (Hall (Z.to_nat b)). rewrite Z2Nat.id in Hall by exact Hlo.
  assert (In (Z.to_nat b) (seq 0 256)) as Hin by (apply in_seq; lia).
  specialize (Hall Hin).
  destruct (Utils.padStart2 (Utils.toString16 b)) as [|x [|y [|z rest]]];
    try discriminate.
  apply andb_true_iff in Hall as [[Hx Hy]%andb_true_iff Heq].
  exists x, y. repeat split; try assumption. apply Z.eqb_eq, Heq.
Qed.

(** Bytes written as hexadecimal and read back are the same bytes. *)
Theorem hexToBytes_bytesToHex (bytes : list Z) :
  Forall Utils.is_byte bytes ->
  Utils.hexToBytes (Utils.bytesToHex bytes) = bytes.
Proof.
  unfold Utils.bytesToHex.
  induction 1 as [|b bytes Hb _ IH]; [reflexivity|].
  cbn [map]. rewrite concat_empty_cons.
  destruct (byte_hex b Hb) as (x & y & -> & _ & _ & Hback).
  change (String x (String y "") +:+ ?r) with (String x (String y r)).
  rewrite hexToBytes_pair, Hback, IH. reflexivity.
Qed.

Lemma hexToBytes_bytesToHex_witness :
  Utils.bytesToHex [0; 7; 16; 171; 255]%Z = "000710abff" /\
  Utils.hexToBytes (Utils.bytesToHex [0; 7; 16; 171; 255]%Z) = [0; 7; 16; 171; 255]%Z.
Proof.
  split; [reflexivity|].
  apply (hexToBytes_bytesToHex [0; 7; 16; 171; 255]%Z).
  repeat constructor; unfold Utils.is_byte; lia.
Defined.

(** [bytesToHex] writes two lower-case hexadecimal characters per byte. *)
Theorem bytesToHex_shape (bytes : list Z) :
  Forall Utils.is_byte bytes ->
  String.length (Utils.bytesToHex bytes) = 2 * length bytes /\
  Utils.all_lower_hex (Utils.bytesToHex bytes) = true.
Proof.
  unfold Utils.bytesToHex.
  induction 1 as [|b bytes Hb _ [IH1 IH2]]; [split; reflexivity|].
  cbn [map]. rewrite concat_empty_cons.
  destruct (byte_hex b Hb) as (x & y & -> & Hx & Hy & _).
  change (String x (String y "") +:+ ?r) with (String x (String y r)).
  cbn [String.length Utils.all_lower_hex length].
  rewrite IH1, IH2, Hx, Hy. split; [lia|reflexivity].
Qed.

Lemma bytesToHex_shape_witness :
  String.length (Utils.bytesToHex [0; 7; 255]%Z) = 6 /\
  Utils.all_lower_hex (Utils.bytesToHex [0; 7; 255]%Z) = true.
Proof.
  apply (bytesToHex_shape [0; 7; 255]%Z).
  repeat constructor; unfold Utils.is_byte; lia.
Defined.

Lemma to_uint8_byte (n : option Z) : Utils.is_byte (Utils.to_uint8 n).
Proof.
  unfold Utils.is_byte, Utils.to_uint8. destruct n as [z|]; [|lia].
  apply Z.mod_pos_bound. lia.
Qed.

(** [hexToBytes] accepts every string: it returns half as many bytes as the
    string has characters, rounded down, and each of them is a byte, also
    where the two characters are not hexadecimal digits; a last character
    without a partner is dropped. *)
Theorem hexToBytes_shape (hex : string) :
  length (Utils.hexToBytes hex) = String.length hex / 2 /\
  Forall Utils.is_byte (Utils.hexToBytes hex) /\
  (Nat.even (String.length hex) = true ->
   forall c, Utils.hexToBytes (hex +:+ String c "") = Utils.hexToBytes hex).
Proof.
  induction hex as [|a|a b s (IH1 & IH2 & IH3)] using string_pairs_ind.
  - split; [reflexivity|]. split; [constructor|]. intros _ c. reflexivity.
  - split; [reflexivity|]. split; [constructor|]. intros [=].
  - rewrite hexToBytes_pair. cbn [length String.length].
    split; [|split].
    + rewrite IH1.
      change (S (S (String.length s))) with (1 * 2 + String.length s).
      rewrite Nat.add_comm, Nat.div_add by lia. lia.
    + constructor; [apply to_uint8_byte|exact IH2].
    + intros He c.
      change (String a (String b s) +:+ String c "")
        with (String a (String b (s +:+ String c ""))).
      rewrite hexToBytes_pair, (IH3 He c). reflexivity.
Qed.

Lemma hexToBytes_shape_witness :
  Utils.hexToBytes "0aZZff7" = [10; 0; 255]%Z /\
  Utils.hexToBytes ("0aZZff" +:+ "7") = Utils.hexToBytes "0aZZff".
Proof.
  split; [reflexivity|].
  destruct (hexToBytes_shape "0aZZff") as (_ & _ & H).
  apply (H eq_refl "7"%char).
Defined.

Lemma lower_hex_cases (c : ascii) :
  Utils.is_lower_hex c = true ->
  In c ["0"; "1"; "2"; "3"; "4"; "5"; "6"; "7"; "8"; "9";
        "a"; "b"; "c"; "d"; "e"; "f"]%char.
Proof.
  destruct c as [[] [] [] [] [] [] [] []]; vm_compute; intros H;
    try discriminate H; tauto.
Qed.

Lemma lower_hex_pair (a b : ascii) :
  Utils.is_lower_hex a = true -> Utils.is_lower_hex b = true ->
  Utils.padStart2
    (Utils.toString16 (Utils.to_uint8 (Utils.parseInt16 (String a (String b "")))))
  = String a (String b "").
Proof.
  intros Ha%lower_hex_cases Hb%lower_hex_cases.
  repeat (destruct Ha as [<-|Ha]; [|]); try destruct Ha;
    repeat (destruct Hb as [<-|Hb]; [|]); try destruct Hb; reflexivity.
Qed.

(** A string of lower-case hexadecimal characters of even length, read as
    bytes and written back, is the same string. *)
Theorem bytesToHex_hexToBytes (hex : string) :
  Nat.even (String.length hex) = true ->
  Utils.all_lower_hex hex = true ->
  Utils.bytesToHex (Utils.hexToBytes hex) = hex.
Proof.
  induction hex as [|a|a b s IH] using string_pairs_ind.
  - reflexivity.
  - intros [=].
  - cbn [String.length Nat.even Utils.all_lower_hex].
    intros He [Ha [Hb Hs]%andb_true_iff]%andb_true_iff.
    rewrite hexToBytes_pair. unfold Utils.bytesToHex in *. cbn [map].
    rewrite concat_empty_cons, (lower_hex_pair a b Ha Hb), (IH He Hs). reflexivity.
Qed.

Lemma bytesToHex_hexToBytes_witness :
  Utils.bytesToHex (Utils.hexToBytes "00ff1a") = "00ff1a" /\
  Utils.bytesToHex (Utils.hexToBytes "00FF1A") = "00ff1a".
Proof.
  split; [|reflexivity].
  apply (bytesToHex_hexToBytes "00ff1a"); reflexivity.
Defined.

(** ** [formatError] *)

(** [formatError] always gives something to display: its result is never
    empty or falsy, whatever the code and the message of the error are. *)
Theorem formatError_truthy (error : Utils.ErrorLike) :
  truthy (Utils.formatError error) = true /\
  (Utils.code error <> VNum 4001 -> Utils.code error <> VNum (-32603) ->
   truthy (Utils.message error) = true ->
   Utils.formatError error = Utils.message error).
Proof.
  unfold Utils.formatError. split.
  - repeat case_bool_decide; try reflexivity.
    destruct (truthy (Utils.message error)) eqn:Hm; [exact Hm|reflexivity].
  - intros H1 H2 Hm. rewrite !bool_decide_eq_false_2, Hm by assumption. reflexivity.
Qed.

Lemma formatError_truthy_witness :
  Utils.formatError {| Utils.code := VNum 4001; Utils.message := VStr "denied" |}
  = VStr "Transaction rejected by user" /\
  Utils.formatError {| Utils.code := VUndefined; Utils.message := VStr "denied" |}
  = VStr "denied".
Proof.
  split; [reflexivity|].
  destruct (formatError_truthy
              {| Utils.code := VUndefined; Utils.message := VStr "denied" |}) as [_ H].
  apply H; [discriminate|discriminate|reflexivity].
Defined.

(** ** Methods that only read the client *)

Lemma read_only_bind {A B : Type} (p : prog A) (f : A -> prog B) :
  read_only p -> (forall a, read_only (f a)) -> read_only (p ≫= f).
Proof.
  unfold mbind, prog_bind. intros Hp Hf.
  induction p as [a|e|k IH|g k IH|c k IH|c k IH|k IH]; cbn in *; auto.
Qed.

Lemma read_only_try_catch {A : Type} (p : prog A) (h : JsError -> prog A) :
  read_only p -> (forall e, read_only (h e)) -> read_only (try_catch p h).
Proof.
  intros Hp Hh.
  induction p as [a|e|k IH|g k IH|c k IH|c k IH|k IH]; cbn in *; auto.
Qed.

Lemma read_only_await_method {A : Type} (p : prog A) :
  read_only p -> read_only (await_method p).
Proof.
  intros Hp. unfold await_method.
  apply read_only_try_catch; [|intros e; exact I].
  apply read_only_bind; [exact Hp|]. intros a. exact I.
Qed.

Lemma read_only_invoke c : read_only (invoke c).
Proof. intros [v|e]; exact I. Qed.

Lemma read_only_await c : read_only (await c).
Proof. intros [v|e]; exact I. Qed.

(** A program that never writes leaves the client as it found it. *)
Lemma exec_read_only {A : Type} env tid (p : prog A) : forall w,
  read_only p -> store (exec env tid p w).2 = store w.
Proof.
  induction p as [a|e|k IH|g k IH|c k IH|c k IH|k IH]; intros w Hp; cbn in *; auto.
  - destruct Hp.
  - rewrite IH by apply Hp. reflexivity.
  - rewrite IH by apply Hp. reflexivity.
Qed.

Lemma read_only_createEncryptedInput c u :
  read_only (Encryption.createEncryptedInput c u).
Proof.
  intros this. cbn.
  destruct (negb _ || negb _); [exact I|]. apply read_only_invoke.
Qed.

Lemma read_only_encrypt x options : read_only (encrypt x options).
Proof.
  destruct x; cbn [encrypt];
    unfold Encryption.encryptU8, Encryption.encryptU16, Encryption.encryptU32,
      Encryption.encryptU64, Encryption.encryptBool; cbv zeta;
    (apply read_only_bind;
     [apply read_only_await_method, read_only_createEncryptedInput|]);
    intros input;
    (apply read_only_bind; [apply read_only_invoke|]);
    intros _; apply read_only_await.
Qed.

Lemma read_only_getPublicKey : read_only Encryption.getPublicKey.
Proof.
  intros this. cbn. destruct (negb _); [exact I|]. apply read_only_invoke.
Qed.

Lemma read_only_getState : read_only Client.getState.
Proof. intros this. cbn. intros c. exact I. Qed.

Ltac read_only_steps :=
  repeat first [ exact I | intros [?|?]; cbn | intros ?; cbn ].

Lemma read_only_userDecrypt request : read_only (Decryption.userDecrypt request).
Proof.
  intros this. cbn.
  destruct (negb _); [exact I|]. destruct (signer this) as [sgn|]; [|exact I].
  cbn. read_only_steps.
Qed.

Lemma read_only_publicDecrypt contract methodName args :
  read_only (Decryption.publicDecrypt contract methodName args).
Proof.
  intros this. cbn. destruct (negb _); [exact I|]. cbn. read_only_steps.
Qed.

Lemma read_only_createContract address abi sgn :
  read_only (ContractHelper.createContract address abi sgn).
Proof.
  intros this. cbn. destruct sgn; [exact I|]. destruct (signer this); exact I.
Qed.

Lemma read_only_sendEncryptedTransaction contract methodName inputs args :
  read_only (ContractHelper.sendEncryptedTransaction contract methodName inputs args).
Proof.
  unfold ContractHelper.sendEncryptedTransaction. cbn. read_only_steps.
Qed.

Lemma read_only_callView contract methodName args :
  read_only (ContractHelper.callView contract methodName args).
Proof.
  apply read_only_try_catch; [|intros e; exact I]. apply read_only_await.
Qed.

(** ** What the client keeps across its methods *)

Lemma consistent_new config : consistent config (Client.new config).
Proof. split; try reflexivity. Qed.

Lemma consistent_initialize env tid config w :
  consistent config (store w) ->
  consistent config (store (exec env tid Client.initialize w).2).
Proof.
  intros [Hp Hs Hn Hg Ha He Hd Hh]. rewrite exec_Client_initialize.
  destruct (_isInitialized (store w)) eqn:Hc;
    [split; cbn; auto; intros; congruence|].
  rewrite exec_Encryption_initialize, He. cbv zeta.
  destruct (env (log w) Import_fhevmjs) as [x|e];
    [|split; cbn; auto; intros; congruence].
  destruct (env _ (Encryption.createInstance (store w))) as [inst|e];
    [|split; cbn; auto; intros; congruence].
  cbn. rewrite Hd. cbn. split; cbn; auto. discriminate.
Qed.

Lemma consistent_dispose env tid config w :
  consistent config (store w) ->
  consistent config (store (exec env tid Client.dispose w).2).
Proof.
  intros [Hp Hs Hn Hg Ha He Hd Hh]. rewrite exec_Client_dispose.
  split; cbn; auto.
Qed.

(** ** Failure of [initialize] *)

(** A failed [initialize] leaves the client object exactly as it was, so that
    it can be called again: the failure is that of the import or of the
    construction of the backend, which is the last thing asked of the outside
    world, is not retried, and is reported wrapped twice, by the encryption
    service and by the client. *)
Theorem initialize_failure_changes_nothing env tid w e w1 :
  exec env tid Client.initialize w = (Rejected e, w1) ->
  store w1 = store w /\
  exists cause c l,
    e = new_Error ("Failed to initialize FHEVM client: "
                   +:+ error_toString
                         (new_Error ("Failed to initialize encryption service: "
                                     +:+ error_toString cause))) /\
    log w1 = log w ++ l /\
    last l = Some (asked tid c (Throws cause)) /\
    List.filter threw l = [asked tid c (Throws cause)] /\
    (c = Import_fhevmjs \/ c = Encryption.createInstance (store w)).
Proof.
  rewrite exec_Client_initialize.
  destruct (_isInitialized (store w)); [discriminate|].
  rewrite exec_Encryption_initialize.
  destruct (enc_initialized (encryption (store w))); [discriminate|]. cbv zeta.
  destruct (env (log w) Import_fhevmjs) as [x|cause] eqn:E1.
  - destruct (env _ (Encryption.createInstance (store w))) as [inst|cause] eqn:E2;
      [discriminate|].
    intros [= <- <-]. split; [reflexivity|].
    exists cause, (Encryption.createInstance (store w)).
    eexists. split; [reflexivity|].
    split; [cbn; rewrite <- app_assoc; reflexivity|].
    cbn. auto.
  - intros [= <- <-]. split; [reflexivity|].
    exists cause, Import_fhevmjs. eexists.
    split; [reflexivity|]. split; [reflexivity|]. cbn. auto.
Qed.

Lemma initialize_failure_changes_nothing_witness :
  exists e w1,
    exec env_down 0 Client.initialize (fresh sample_config) = (Rejected e, w1) /\
    store w1 = store (fresh sample_config) /\
    err_message e
    = "Failed to initialize FHEVM client: Error: Failed to initialize encryption service: Error: gateway unreachable".
Proof.
  eexists _, _. split; [reflexivity|].
  destruct (initialize_failure_changes_nothing env_down 0 (fresh sample_config) _ _
              eq_refl) as [H _].
  split; [exact H|reflexivity].
Defined.

(** ** The typed encrypt methods *)

(** Each typed encrypt method, on an initialized service that holds a
    backend handle, opens one session for the contract address and the user
    of its options, adds its one value with the width of the method, and
    seals the session; it stops at the first of the three backend operations
    that throws and rejects with that very error, not wrapped; the outcome is
    otherwise what sealing returned. *)
Theorem encrypt_protocol env tid (x : plaintext) options w :
  enc_initialized (encryption (store w)) = true ->
  truthy (instance (encryption (store w))) = true ->
  exec env tid (encrypt x options) w =
  let c1 := Instance_createEncryptedInput (instance (encryption (store w)))
              (Encryption.contract_address options) (opt_userAddress options) in
  let w1 := record tid c1 (env (log w) c1) w in
  match env (log w) c1 with
  | Throws e => (Rejected e, w1)
  | Returns input =>
      let c2 := add_call x input in
      let w2 := record tid c2 (env (log w1) c2) w1 in
      match env (log w1) c2 with
      | Throws e => (Rejected e, w2)
      | Returns _ =>
          let c3 := Input_encrypt input in
          let w3 := record tid c3 (env (log w2) c3) w2 in
          match env (log w2) c3 with
          | Throws e => (Rejected e, w3)
          | Returns sealed => (Fulfilled sealed, w3)
          end
      end
  end.
Proof.
  intros He Hi.
  destruct x; cbn [encrypt add_call];
    unfold Encryption.encryptU8, Encryption.encryptU16, Encryption.encryptU32,
      Encryption.encryptU64, Encryption.encryptBool; cbv zeta;
    rewrite exec_bind, exec_await_method;
    unfold Encryption.createEncryptedInput; cbn; rewrite He, Hi; cbn;
    (destruct (env (log w) _) as [input|e]; [|reflexivity]); cbn;
    match goal with
    | |- context [env ?l (Input_add input ?b ?v)] =>
        destruct (env l (Input_add input b v)) as [y|e]; [|reflexivity]
    | |- context [env ?l (Input_addBool input ?v)] =>
        destruct (env l (Input_addBool input v)) as [y|e]; [|reflexivity]
    end; cbn;
    (destruct (env _ (Input_encrypt input)) as [sealed|e]; reflexivity).
Qed.

Lemma encrypt_protocol_witness :
  exec env_ok 0 (encrypt (Bool true) {| opt_contract := ContractObject "0xC1";
                                        opt_userAddress := "0xA1" |})
    (ready_world sample_config)
  = (Fulfilled (VObj 4),
     {| store := store (ready_world sample_config);
        log := log (ready_world sample_config) ++
               [asked 0 (Instance_createEncryptedInput (VObj 1) "0xC1" "0xA1")
                  (Returns (VObj 2));
                asked 0 (Input_addBool (VObj 2) true) (Returns (VObj 3));
                asked 0 (Input_encrypt (VObj 2)) (Returns (VObj 4))] |}).
Proof.
  rewrite (encrypt_protocol env_ok 0 (Bool true) _ (ready_world sample_config));
    reflexivity.
Defined.


(** ** Running a method one operation at a time *)

Lemma exec_await env tid c w :
  exec env tid (await c) w =
  match env (log w) c with
  | Returns v => (Fulfilled v, record tid c (Returns v) w)
  | Throws e => (Rejected e, record tid c (Throws e) w)
  end.
Proof. cbn. destruct (env (log w) c); reflexivity. Qed.

Lemma exec_invoke env tid c w :
  exec env tid (invoke c) w =
  match env (log w) c with
  | Returns v => (Fulfilled v, record tid c (Returns v) w)
  | Throws e => (Rejected e, record tid c (Throws e) w)
  end.
Proof. cbn. destruct (env (log w) c); reflexivity. Qed.

Lemma exec_get {A : Type} env tid (f : FhevmClient -> prog A) w :
  exec env tid (read ≫= f) w = exec env tid (f (store w)) w.
Proof. reflexivity. Qed.

Ltac exec_step :=
  rewrite ?exec_try_catch, ?exec_bind;
  first [ rewrite exec_await | rewrite exec_invoke ];
  match goal with
  | |- context [match ?x with Returns _ => _ | Throws _ => _ end] =>
      let E := fresh "E" in destruct x as [?v|?cause] eqn:E
  end;
  cbv beta iota.

(** ** [userDecrypt] *)

(** A [userDecrypt] that succeeds has followed the whole protocol, in this
    order and with nothing else asked of the outside world: the import, the
    construction of a backend instance of its own from the configuration of
    the client, the typed data for the contract and user of the request, the
    signature of the client's signer over exactly that domain, [Reencrypt]
    type and message, the gateway call for the handle, contract and user of
    the request with that signature, and the clock; its value is the
    gateway's answer, its timestamp the clock's, and the client is unchanged. *)
Theorem userDecrypt_protocol env tid request w result w1 :
  exec env tid (Decryption.userDecrypt request) w = (Fulfilled result, w1) ->
  store w1 = store w /\
  exists sgn module inst eip712 domain types reencrypt message signature,
    signer (store w) = Some sgn /\
    log w1 = log w ++
      [asked tid Import_fhevmjs (Returns module);
       asked tid (Decryption.createInstance (store w)) (Returns inst);
       asked tid (Instance_createEIP712 inst (contractAddress request)
                    (userAddress request)) (Returns eip712);
       asked tid (Property eip712 "domain") (Returns domain);
       asked tid (Property eip712 "types") (Returns types);
       asked tid (Property types "Reencrypt") (Returns reencrypt);
       asked tid (Property eip712 "message") (Returns message);
       asked tid (Signer_signTypedData sgn domain reencrypt message)
         (Returns signature);
       asked tid (Instance_reencrypt inst (handle request) (contractAddress request)
                    (userAddress request) signature)
         (Returns (result_value result));
       asked tid Date_now (Returns (timestamp result))].
Proof.
  intros H. split.
  { change w1 with (Fulfilled result, w1).2. rewrite <- H.
    apply exec_read_only, read_only_userDecrypt. }
  revert H. unfold Decryption.userDecrypt. rewrite exec_get.
  destruct (dec_initialized (decryption (store w))); cbv beta iota delta [negb];
    [|discriminate].
  destruct (signer (store w)) as [sgn|]; [|discriminate].
  exec_step; [|discriminate].
  rewrite exec_get.
  do 9 (exec_step; [|discriminate]).
  cbn [exec]. intros [= <- <-]. do 9 eexists. split; [reflexivity|].
  cbn. rewrite <- !app_assoc. reflexivity.
Qed.

Lemma userDecrypt_protocol_witness :
  let w := ready_world sample_config in
  let run := exec env_refuse_b 0 (Decryption.userDecrypt request_a) w in
  run.1 = Fulfilled {| result_value := VNum 100; timestamp := VObj 11 |} /\
  store run.2 = store w.
Proof.
  intros w run.
  assert (run = (Fulfilled {| result_value := VNum 100; timestamp := VObj 11 |}, run.2))
    as H by (vm_compute; reflexivity).
  split; [rewrite H; reflexivity|].
  apply (userDecrypt_protocol env_refuse_b 0 request_a w _ _ H).
Defined.

(** A [userDecrypt] that fails leaves the client unchanged and is rejected
    either by one of its two checks, before anything is asked of the outside
    world, or with the cause of the first operation that threw, wrapped; that
    operation is the last thing asked, so after a refused signature the
    gateway is not called. *)
Theorem userDecrypt_failure env tid request w e w1 :
  exec env tid (Decryption.userDecrypt request) w = (Rejected e, w1) ->
  store w1 = store w /\
  ((e = NotInitializedError \/ e = SignerRequiredError) /\ w1 = w \/
   exists cause c l,
     e = new_Error ("Failed to decrypt value: " +:+ error_toString cause) /\
     log w1 = log w ++ l /\
     last l = Some (asked tid c (Throws cause)) /\
     List.filter threw l = [asked tid c (Throws cause)]).
Proof.
  intros H. split.
  { change w1 with (@Rejected DecryptionResult e, w1).2. rewrite <- H.
    apply exec_read_only, read_only_userDecrypt. }
  revert H. unfold Decryption.userDecrypt. rewrite exec_get.
  destruct (dec_initialized (decryption (store w))); cbv beta iota delta [negb];
    [|intros [= <- <-]; left; auto].
  destruct (signer (store w)) as [sgn|]; [|intros [= <- <-]; left; auto].
  intros H. right. revert H.
  assert (forall cause c l (w2 : world),
            log w2 = log w ++ l ->
            last l = Some (asked tid c (Throws cause)) ->
            List.filter threw l = [asked tid c (Throws cause)] ->
            (@Rejected DecryptionResult
               (new_Error ("Failed to decrypt value: " +:+ error_toString cause)),
             w2) = (Rejected e, w1) ->
            exists cause c l,
              e = new_Error ("Failed to decrypt value: " +:+ error_toString cause) /\
              log w1 = log w ++ l /\
              last l = Some (asked tid c (Throws cause)) /\
              List.filter threw l = [asked tid c (Throws cause)]) as Hend.
  { intros cause c l w2 Hl Hlast Hf [= <- <-]. exists cause, c, l. auto. }
  exec_step;
    [|cbn [exec]; eapply Hend; [cbn; reflexivity|reflexivity|reflexivity]].
  rewrite exec_get.
  do 9 (exec_step;
        [|cbn [exec]; eapply Hend;
          [cbn; rewrite <- ?app_assoc; reflexivity|reflexivity|reflexivity]]).
  discriminate.
Qed.

Lemma userDecrypt_failure_witness :
  let w := ready_world sample_config in
  let run := exec env_refuse_b 0 (Decryption.userDecrypt request_b) w in
  run.1 = Rejected (new_Error "Failed to decrypt value: Error: permission denied") /\
  store run.2 = store w.
Proof.
  intros w run.
  assert (run = (Rejected (new_Error "Failed to decrypt value: Error: permission denied"),
                 run.2)) as H by (vm_compute; reflexivity).
  split; [rewrite H; reflexivity|].
  apply (userDecrypt_failure env_refuse_b 0 request_b w _ _ H).
Defined.

(** ** [publicDecrypt] *)

(** [publicDecrypt] on an initialized decryption service needs no signer and
    never touches the backend: all it asks of the outside world is the
    contract method it is given, with the arguments it is given, and then the
    clock.  Its value is what the contract method returned; a failure is
    rejected with its cause wrapped; the client is unchanged. *)
Theorem publicDecrypt_is_a_view_call env tid contract methodName args w :
  dec_initialized (decryption (store w)) = true ->
  let run := exec env tid (Decryption.publicDecrypt contract methodName args) w in
  store run.2 = store w /\
  exists l,
    log run.2 = log w ++ l /\
    List.filter is_import_or_backend l = [] /\
    match run.1 with
    | Fulfilled result =>
        l = [asked tid (Contract_method contract methodName args)
               (Returns (result_value result));
             asked tid Date_now (Returns (timestamp result))]
    | Rejected e =>
        exists cause c,
          e = new_Error ("Failed to decrypt public value: " +:+ error_toString cause) /\
          last l = Some (asked tid c (Throws cause))
    end.
Proof.
  intros Hi run. split.
  { apply exec_read_only, read_only_publicDecrypt. }
  subst run. unfold Decryption.publicDecrypt. rewrite exec_get, Hi.
  cbv beta iota delta [negb].
  exec_step.
  - exec_step; cbn [exec fst snd].
    + eexists. split; [cbn; rewrite <- app_assoc; reflexivity|].
      split; reflexivity.
    + eexists. split; [cbn; rewrite <- app_assoc; reflexivity|].
      split; [reflexivity|]. eexists _, _. split; reflexivity.
  - cbn [exec fst snd]. eexists. split; [reflexivity|].
    split; [reflexivity|]. eexists _, _. split; reflexivity.
Qed.

Lemma publicDecrypt_is_a_view_call_witness :
  let w := ready_world no_signer_config in
  let run := exec env_ok 0 (Decryption.publicDecrypt (VObj 50) "totalSupply" []) w in
  signer (store w) = None /\
  run.1 = Fulfilled {| result_value := VObj 2; timestamp := VObj 3 |} /\
  store run.2 = store w.
Proof.
  intros w run. split; [reflexivity|]. split; [reflexivity|].
  apply (publicDecrypt_is_a_view_call env_ok 0 (VObj 50) "totalSupply" [] w).
  reflexivity.
Defined.

(** ** [ContractHelper.sendEncryptedTransaction] *)

(** [sendEncryptedTransaction] calls the contract method once, with the first
    handle of the encrypted input and its proof as the two leading arguments,
    followed by the additional arguments in their order, and then waits for
    the transaction it returned; the handles after the first are never read.
    Its result is what waiting returned.  It stops at the first operation
    that throws and rejects with its cause wrapped.  The client is
    unchanged. *)
Theorem sendEncryptedTransaction_protocol env tid contract methodName inputs extra w :
  let run := exec env tid
               (ContractHelper.sendEncryptedTransaction contract methodName inputs extra)
               w in
  store run.2 = store w /\
  exists l,
    log run.2 = log w ++ l /\
    match run.1 with
    | Fulfilled receipt =>
        exists handles first proof tx,
          l = [asked tid (Property inputs "handles") (Returns handles);
               asked tid (Property handles "0") (Returns first);
               asked tid (Property inputs "inputProof") (Returns proof);
               asked tid (Contract_method contract methodName (first :: proof :: extra))
                 (Returns tx);
               asked tid (Contract_method tx "wait" []) (Returns receipt)]
    | Rejected e =>
        exists cause c,
          e = new_Error ("Failed to send encrypted transaction: "
                         +:+ error_toString cause) /\
          last l = Some (asked tid c (Throws cause)) /\
          List.filter threw l = [asked tid c (Throws cause)]
    end.
Proof.
  intros run. split.
  { apply exec_read_only, read_only_sendEncryptedTransaction. }
  subst run. unfold ContractHelper.sendEncryptedTransaction.
  do 5 (exec_step;
        [|cbn [exec fst snd]; eexists;
          split; [cbn; rewrite <- ?app_assoc; reflexivity|];
          eexists _, _; split; [reflexivity|]; split; reflexivity]).
  cbn [exec fst snd]. eexists. split; [cbn; rewrite <- !app_assoc; reflexivity|].
  eexists _, _, _, _. reflexivity.
Qed.

(** ** [createFhevmClient] *)

(** [createFhevmClient] either returns a client that is ready, that is the
    client it constructed from the configuration, initialized by exactly one
    import and one construction of the backend from the network, gateway URL
    and ACL address of that configuration, holding the instance so
    constructed; or it rejects with the wrapped cause and no client is
    returned. *)
Theorem createFhevmClient_result env tid config :
  let run := exec env tid Factory.createFhevmClient (fresh config) in
  match run.1 with
  | Fulfilled client =>
      client = store run.2 /\
      Ready client /\
      consistent config client /\
      constructions run.2 = 1 /\
      exists module inst,
        log run.2
        = [asked tid Import_fhevmjs (Returns module);
           asked tid (Encryption.createInstance (Client.new config)) (Returns inst)] /\
        instance (encryption client) = inst
  | Rejected e =>
      store run.2 = Client.new config /\
      exists cause,
        e = new_Error ("Failed to initialize FHEVM client: "
                       +:+ error_toString
                             (new_Error ("Failed to initialize encryption service: "
                                         +:+ error_toString cause)))
  end.
Proof.
  intros run. subst run. unfold Factory.createFhevmClient.
  rewrite exec_bind, exec_await_method, exec_Client_initialize.
  cbn [fresh store _isInitialized Client.new].
  rewrite exec_Encryption_initialize.
  cbn [fresh store encryption enc_initialized Client.new]. cbv zeta.
  destruct (env (log (fresh config)) Import_fhevmjs) as [module|cause] eqn:E1.
  - destruct (env _ (Encryption.createInstance _)) as [inst|cause] eqn:E2.
    + cbn. split; [reflexivity|]. split; [reflexivity|].
      split; [split; cbn; auto; discriminate|]. split; [reflexivity|].
      exists module, inst. split; reflexivity.
    + cbn. split; [reflexivity|]. exists cause. reflexivity.
  - cbn. split; [reflexivity|]. exists cause. reflexivity.
Qed.

(** ** More on [batchUserDecrypt] *)

Lemma run_turn_read_only {A : Type} env tid (p : prog A) : forall w,
  read_only p ->
  store (run_turn env tid p w).2 = store w /\ task_read_only (run_turn env tid p w).1.
Proof.
  induction p as [a|e|k IH|g k IH|c k IH|c k IH|k IH]; intros w Hp; cbn in *; auto.
  - destruct Hp.
  - destruct (IH (env (log w) c) (record tid c (env (log w) c) w) (Hp _)) as [H1 H2].
    rewrite H1. auto.
Qed.

Lemma spawn_read_only {A : Type} env (ps : list (prog A)) : forall tid w,
  Forall read_only ps ->
  store (spawn env tid ps w).2 = store w /\
  Forall task_read_only (spawn env tid ps w).1.
Proof.
  induction ps as [|p ps IH]; intros tid w Hps; cbn [spawn]; [auto|].
  inversion Hps as [|? ? Hp Hrest]; subst.
  destruct (run_turn_read_only env tid p w Hp) as [H1 H2].
  destruct (run_turn env tid p w) as [t w1]. cbn [fst snd] in *.
  destruct (IH (S tid) w1 Hrest) as [H3 H4].
  destruct (spawn env (S tid) ps w1) as [ts w2]. cbn [fst snd] in *.
  split; [congruence|]. constructor; assumption.
Qed.

Lemma step_read_only {A : Type} env (s : pool A) i :
  Forall task_read_only (tasks s) ->
  store (now (step env s i)) = store (now s) /\
  Forall task_read_only (tasks (step env s i)).
Proof.
  intros Hs.
  destruct (tasks s !! i) as [t|] eqn:Hi; [|unfold step; rewrite Hi; auto].
  pose proof (proj1 (Forall_lookup _ _) Hs i t Hi) as Ht.
  destruct t as [c k|k|o|o].
  - rewrite (step_waiting env s i c k Hi). cbn [now tasks]. cbv zeta.
    destruct (run_turn_read_only env i (k (env (log (now s)) c))
                (record i c (env (log (now s)) c) (now s)) (Ht _)) as [H1 H2].
    split; [exact H1|]. apply Forall_insert; assumption.
  - rewrite (step_paused env s i k Hi). cbn [now tasks].
    destruct (run_turn_read_only env i k (now s) Ht) as [H1 H2].
    split; [exact H1|]. apply Forall_insert; assumption.
  - split; [unfold step; rewrite Hi; destruct o; reflexivity|].
    rewrite (step_settled env s i o Hi). apply Forall_insert; [assumption|exact I].
  - unfold step. rewrite Hi. auto.
Qed.

Lemma batch_store_unchanged env w requests schedule :
  store (now (run env (Promise_all env (Decryption.batchUserDecrypt requests) w)
                schedule))
  = store w.
Proof.
  assert (forall s : pool DecryptionResult,
            Forall task_read_only (tasks s) ->
            store (now (run env s schedule)) = store (now s)) as Hrun.
  { induction schedule as [|i schedule IH]; intros s Hs; [reflexivity|].
    rewrite run_cons. destruct (step_read_only env s i Hs) as [H1 H2].
    rewrite (IH _ H2). exact H1. }
  assert (Forall read_only (Decryption.batchUserDecrypt requests)) as Hps.
  { unfold Decryption.batchUserDecrypt. apply Forall_forall.
    intros p Hp. apply list_elem_of_In, in_map_iff in Hp as (r & <- & _).
    apply read_only_userDecrypt. }
  destruct (spawn_read_only env _ 0 w Hps) as [H1 H2].
  rewrite Hrun; unfold Promise_all;
    destruct (spawn env 0 (Decryption.batchUserDecrypt requests) w) as [ts w1];
    cbn in *; assumption.
Qed.

(** Under every schedule and whatever the outside world answers,
    [batchUserDecrypt] leaves the client object as it found it. *)
Theorem batchUserDecrypt_changes_nothing env w requests schedule :
  store (now (run env (Promise_all env (Decryption.batchUserDecrypt requests) w)
                schedule))
  = store w.
Proof. apply batch_store_unchanged. Qed.

(** An empty batch fulfils at once with the empty list, asking nothing of the
    outside world, and stays so under every schedule. *)
Theorem batchUserDecrypt_empty env w schedule :
  let s := run env (Promise_all env (Decryption.batchUserDecrypt []) w) schedule in
  promise s = Some (Fulfilled []) /\ now s = w /\ quiescent s = true.
Proof.
  cbn. induction schedule as [|i schedule IH]; [auto|].
  rewrite run_cons. exact IH.
Qed.

(** When every request of a batch has settled and none has failed, the batch
    fulfils, with one result per request. *)
Theorem batchUserDecrypt_fulfils env w requests schedule :
  let s := run env (Promise_all env (Decryption.batchUserDecrypt requests) w) schedule in
  quiescent s = true ->
  (forall i e, outcome_of s i <> Some (Rejected e)) ->
  exists results,
    promise s = Some (Fulfilled results) /\ length results = length requests.
Proof.
  intros s Hq Hok.
  destruct (batchUserDecrypt_inv env w requests schedule) as [Hl Hv Hr Hp].
  fold s in Hl, Hv, Hr, Hp.
  assert (length (List.filter open (tasks s)) = 0) as Hclosed.
  { unfold quiescent in Hq. rewrite forallb_forall in Hq.
    assert (forall t, In t (tasks s) -> open t = false) as Hall.
    { intros t Ht. specialize (Hq t Ht).
      destruct t as [c k|k|o|[a|e]]; try discriminate; [reflexivity|].
      apply list_elem_of_In, list_elem_of_lookup in Ht as [i Hi].
      destruct (Hok i e). unfold outcome_of. rewrite Hi. reflexivity. }
    clear -Hall. induction (tasks s) as [|t ts IH]; [reflexivity|].
    cbn [List.filter]. rewrite (Hall t (or_introl eq_refl)).
    apply IH. intros t2 Ht2. apply Hall. right. exact Ht2. }
  destruct (promise s) as [[results|e]|].
  - exists results. split; [reflexivity|].
    rewrite <- Hl, Hp, length_fmap. reflexivity.
  - destruct Hp as [i Hi]. destruct (Hok i e).
    unfold outcome_of. rewrite Hi. reflexivity.
  - destruct Hp as [Hn _]. congruence.
Qed.

Lemma batchUserDecrypt_fulfils_witness :
  let s := run env_refuse_b
             (Promise_all env_refuse_b
                (Decryption.batchUserDecrypt [request_a; request_c])
                (ready_world sample_config))
             (round_robin 2 6) in
  exists results, promise s = Some (Fulfilled results) /\ length results = 2.
Proof.
  intros s.
  apply (batchUserDecrypt_fulfils env_refuse_b (ready_world sample_config)
           [request_a; request_c] (round_robin 2 6)).
  - vm_compute. reflexivity.
  - intros [|[|i]] e; vm_compute; discriminate.
Defined.

Lemma run_turn_userDecrypt_guard env tid request w :
  signer (store w) = None \/ dec_initialized (decryption (store w)) = false ->
  run_turn env tid (Decryption.userDecrypt request) w
  = (Settled (Rejected (if dec_initialized (decryption (store w))
                        then SignerRequiredError else NotInitializedError)), w).
Proof.
  intros H. unfold Decryption.userDecrypt. cbn.
  destruct (dec_initialized (decryption (store w))); cbn; [|reflexivity].
  destruct H as [->|H]; [reflexivity|discriminate].
Qed.

(** A batch on a client without a signer, or whose decryption service is not
    initialized, asks nothing of the outside world under any schedule: every
    request is rejected by the check of [userDecrypt] in the turn in which it
    is called, and the batch is rejected with that error as soon as
    [Promise.all] has seen one of them. *)
Theorem batchUserDecrypt_guarded env w requests schedule :
  signer (store w) = None \/ dec_initialized (decryption (store w)) = false ->
  let guard := if dec_initialized (decryption (store w))
               then SignerRequiredError else NotInitializedError in
  let s := run env (Promise_all env (Decryption.batchUserDecrypt requests) w) schedule in
  now s = w /\
  (forall i, i < length requests -> outcome_of s i = Some (Rejected guard)) /\
  (forall i, seen s i = true -> promise s = Some (Rejected guard)).
Proof.
  intros Hg guard s.
  set (P := fun t : task DecryptionResult =>
              t = Settled (Rejected guard) \/ t = Delivered (Rejected guard)).
  assert (forall (rs : list DecryptionRequest) tid,
            spawn env tid (Decryption.batchUserDecrypt rs) w
            = (replicate (length rs) (Settled (Rejected guard)), w)) as Hspawn.
  { induction rs as [|r rs IH]; intros tid; [reflexivity|].
    cbn [Decryption.batchUserDecrypt map spawn].
    rewrite (run_turn_userDecrypt_guard env tid r w Hg).
    change (map Decryption.userDecrypt rs) with (Decryption.batchUserDecrypt rs).
    rewrite IH. reflexivity. }
  assert (forall (s0 : pool DecryptionResult) i,
            Forall P (tasks s0) ->
            now (step env s0 i) = now s0 /\ Forall P (tasks (step env s0 i))) as Hstep.
  { intros s0 i Hs0.
    destruct (tasks s0 !! i) as [t|] eqn:Hi; [|unfold step; rewrite Hi; auto].
    destruct (proj1 (Forall_lookup _ _) Hs0 i t Hi) as [->| ->].
    - split; [unfold step; rewrite Hi; reflexivity|].
      rewrite (step_settled env s0 i _ Hi). apply Forall_insert; [exact Hs0|].
      right. reflexivity.
    - unfold step. rewrite Hi. auto. }
  assert (forall sch (s0 : pool DecryptionResult),
            Forall P (tasks s0) ->
            now (run env s0 sch) = now s0 /\ Forall P (tasks (run env s0 sch))) as Hrun.
  { induction sch as [|i sch IH]; intros s0 Hs0; [auto|].
    rewrite run_cons. destruct (Hstep s0 i Hs0) as [H1 H2].
    destruct (IH _ H2) as [H3 H4]. split; [congruence|exact H4]. }
  destruct (Hrun schedule (Promise_all env (Decryption.batchUserDecrypt requests) w))
    as [Hnow Htasks].
  { unfold Promise_all. rewrite Hspawn. cbn [tasks].
    apply Forall_replicate. left. reflexivity. }
  fold s in Hnow, Htasks.
  pose proof (batchUserDecrypt_inv env w requests schedule) as Hinv. fold s in Hinv.
  assert (forall i t, tasks s !! i = Some t -> outcome_of s i = Some (Rejected guard))
    as Hout.
  { intros i t Hi. unfold outcome_of. rewrite Hi.
    destruct (proj1 (Forall_lookup _ _) Htasks i t Hi) as [->| ->]; reflexivity. }
  split; [|split].
  - rewrite Hnow. unfold Promise_all. rewrite Hspawn. reflexivity.
  - intros i Hi. destruct (lookup_lt_is_Some_2 (tasks s) i) as [t Ht].
    { rewrite (inv_length _ _ Hinv). exact Hi. }
    apply (Hout i t Ht).
  - intros i Hseen.
    assert (exists t, tasks s !! i = Some t) as [t Ht].
    { unfold seen in Hseen. destruct (tasks s !! i) as [t|]; [eauto|discriminate]. }
    destruct (rejected_task_rejects_all _ s i guard Hinv (Hout i t Ht)) as [_ Hrej].
    destruct (Hrej (or_introl Hseen)) as (e2 & j & Hp & Hj).
    rewrite Hp. do 2 f_equal.
    assert (exists tj, tasks s !! j = Some tj) as [tj Htj].
    { unfold outcome_of in Hj. destruct (tasks s !! j) as [tj|]; [eauto|discriminate]. }
    rewrite (Hout j tj Htj) in Hj. congruence.
Qed.

Lemma batchUserDecrypt_guarded_witness :
  let w := ready_world no_signer_config in
  let s := run env_ok
             (Promise_all env_ok (Decryption.batchUserDecrypt [request_a; request_b]) w)
             [1; 0] in
  now s = w /\ promise s = Some (Rejected SignerRequiredError).
Proof.
  intros w s.
  destruct (batchUserDecrypt_guarded env_ok w [request_a; request_b] [1; 0])
    as (H1 & _ & H3).
  - left. reflexivity.
  - split; [exact H1|]. apply (H3 1). reflexivity.
Defined.

(** ** [retry] *)

Lemma retry_loop_attempts {A : Type} env tid (fn : prog A) maxRetries (n : nat) :
  forall i lastError w,
    (i + Z.of_nat n = maxRetries)%Z ->
    exec env tid (retry_loop fn maxRetries n i lastError) w
    = attempts env tid fn n lastError w.
Proof.
  induction n as [|n IH]; intros i lastError w Hi; [reflexivity|].
  cbn [retry_loop attempts].
  replace (i <? maxRetries)%Z with true by (symmetry; apply Z.ltb_lt; lia).
  rewrite exec_try_catch, exec_bind, exec_await_method.
  destruct (exec env tid fn w) as [[a|e] w1]; [reflexivity|].
  rewrite exec_bind.
  assert (exec env tid (if (i <? maxRetries - 1)%Z then Yield (Ret tt) else Ret tt) w1
          = (Fulfilled tt, w1)) as -> by (destruct (i <? maxRetries - 1)%Z; reflexivity).
  apply IH. lia.
Qed.

(** [retry] calls [fn] until it succeeds, at most [maxRetries] times, and
    returns its first result; when every attempt has failed it throws the
    error of the last one; with [maxRetries] zero or negative it does not
    call [fn] at all and throws [undefined]. *)
Theorem retry_attempts {A : Type} env tid (fn : prog A) (maxRetries : Z) w :
  exec env tid (retry fn maxRetries) w
  = attempts env tid fn (Z.to_nat maxRetries) None w /\
  ((maxRetries <= 0)%Z ->
   exec env tid (retry fn maxRetries) w = (Fulfilled (Exhausted None), w)).
Proof.
  assert (exec env tid (retry fn maxRetries) w
          = attempts env tid fn (Z.to_nat maxRetries) None w) as H.
  { unfold retry. destruct (Z.le_gt_cases 0 maxRetries) as [Hpos|Hneg].
    - apply retry_loop_attempts. lia.
    - replace (Z.to_nat maxRetries) with 0 by lia. reflexivity. }
  split; [exact H|]. intros Hle. rewrite H.
  replace (Z.to_nat maxRetries) with 0 by lia. reflexivity.
Qed.

Lemma retry_attempts_witness :
  exec env_flaky 0 (retry (ContractHelper.callView (VObj 50) "balanceOf" []) 3)
    (fresh sample_config)
  = (Fulfilled (Returned (VNum 2)),
     {| store := Client.new sample_config;
        log := [asked 0 (Contract_method (VObj 50) "balanceOf" [])
                  (Throws (new_Error "timeout"));
                asked 0 (Contract_method (VObj 50) "balanceOf" [])
                  (Throws (new_Error "timeout"));
                asked 0 (Contract_method (VObj 50) "balanceOf" [])
                  (Returns (VNum 2))] |}) /\
  exec env_flaky 0 (retry (ContractHelper.callView (VObj 50) "balanceOf" []) 0)
    (fresh sample_config)
  = (Fulfilled (Exhausted None), fresh sample_config).
Proof.
  split.
  - rewrite (proj1 (retry_attempts env_flaky 0 _ 3 (fresh sample_config))).
    reflexivity.
  - apply (retry_attempts env_flaky 0 _ 0 (fresh sample_config)). lia.
Defined.

(** ** What the client keeps across all its public methods *)

Lemma keeps_new config : keeps config (Client.new config).
Proof. split; reflexivity. Qed.

Lemma consistent_keeps config c : consistent config c -> keeps config c.
Proof.
  intros [Hp Hs Hn Hg Ha He Hd Hh]. split; auto.
  intros H. apply Hh. congruence.
Qed.

Lemma keeps_Encryption_initialize env tid config w :
  keeps config (store w) ->
  keeps config (store (exec env tid Encryption.initialize w).2).
Proof.
  intros Hw. rewrite exec_Encryption_initialize.
  destruct (enc_initialized (encryption (store w))) eqn:He; [exact Hw|]. cbv zeta.
  destruct (env (log w) Import_fhevmjs) as [x|e]; [|exact Hw].
  destruct (env _ (Encryption.createInstance (store w))) as [inst|e]; [|exact Hw].
  destruct Hw as [Hp Hs Hn Hg Ha Hh]. split; cbn; auto. discriminate.
Qed.

Lemma keeps_Client_initialize env tid config w :
  keeps config (store w) ->
  keeps config (store (exec env tid Client.initialize w).2).
Proof.
  intros Hw. rewrite exec_Client_initialize.
  destruct (_isInitialized (store w)); [exact Hw|].
  pose proof (keeps_Encryption_initialize env tid config w Hw) as H1.
  destruct (exec env tid Encryption.initialize w) as [[[]|e] w1]; [|exact H1].
  cbn [snd] in *. destruct H1 as [Hp Hs Hn Hg Ha Hh].
  destruct (dec_initialized (decryption (store w1))); split; cbn; auto.
Qed.

(** Every method other than an [initialize] or a [dispose] leaves the client
    object as it is. *)
Lemma after_read_only env w m :
  lifecycle m = false -> store (after env w m) = store w.
Proof.
  intros H. destruct m; try discriminate H; cbn [after];
    try apply batch_store_unchanged; apply exec_read_only.
  - apply read_only_getState.
  - intros this. exact I.
  - apply read_only_getPublicKey.
  - apply read_only_createEncryptedInput.
  - apply (read_only_encrypt (U8 v)).
  - apply (read_only_encrypt (U16 v)).
  - apply (read_only_encrypt (U32 v)).
  - apply (read_only_encrypt (U64 v)).
  - apply (read_only_encrypt (Bool v)).
  - apply read_only_userDecrypt.
  - apply read_only_publicDecrypt.
  - apply read_only_createContract.
  - apply read_only_sendEncryptedTransaction.
  - apply read_only_callView.
Qed.

Lemma after_keeps env config w m :
  keeps config (store w) -> keeps config (store (after env w m)).
Proof.
  intros Hw.
  destruct (lifecycle m) eqn:Hm; [|rewrite after_read_only by exact Hm; exact Hw].
  destruct m; try discriminate Hm; cbn [after].
  - apply keeps_Client_initialize, Hw.
  - destruct Hw as [Hp Hs Hn Hg Ha Hh]. rewrite exec_Client_dispose. split; cbn; auto.
  - apply keeps_Encryption_initialize, Hw.
  - destruct Hw as [Hp Hs Hn Hg Ha Hh]. split; cbn; auto.
  - destruct Hw as [Hp Hs Hn Hg Ha Hh]. cbn.
    destruct (dec_initialized (decryption (store w))); split; cbn; auto.
  - destruct Hw as [Hp Hs Hn Hg Ha Hh]. split; cbn; auto.
Qed.

Lemma after_consistent env config w m :
  client_level m = true ->
  consistent config (store w) -> consistent config (store (after env w m)).
Proof.
  intros Hm Hw.
  destruct (lifecycle m) eqn:Hl; [|rewrite after_read_only by exact Hl; exact Hw].
  destruct m; try discriminate Hm; try discriminate Hl; cbn [after].
  - apply consistent_initialize, Hw.
  - apply consistent_dispose, Hw.
Qed.

Lemma after_all_keeps env config (ms : list method) : forall w,
  keeps config (store w) -> keeps config (store (after_all env w ms)).
Proof.
  unfold after_all. induction ms as [|m ms IH]; intros w Hw; [exact Hw|].
  cbn [foldl]. apply IH, after_keeps, Hw.
Qed.

Lemma after_all_consistent env config (ms : list method) : forall w,
  forallb client_level ms = true ->
  consistent config (store w) -> consistent config (store (after_all env w ms)).
Proof.
  unfold after_all. induction ms as [|m ms IH]; intros w Hms Hw; [exact Hw|].
  cbn [forallb] in Hms. apply andb_true_iff in Hms as [Hm Hms].
  cbn [foldl]. apply (IH _ Hms), after_consistent; assumption.
Qed.

(** Whatever public methods of the client, of its two services (their own
    [initialize] and [dispose] included) and of the contract helper are called
    one after the other, and whatever the outside world answers: the client
    keeps the provider, signer, network, gateway URL and ACL address it was
    constructed with, and holds no backend handle while its encryption service
    is not initialized; only an [initialize] or a [dispose] changes the client
    object at all; and as long as the services are initialized and disposed
    only through the client, the three initialization flags agree. *)
Theorem client_stays_consistent env config (ms : list method) :
  let w := after_all env (fresh config) ms in
  keeps config (store w) /\
  (forall w0 m, lifecycle m = false -> store (after env w0 m) = store w0) /\
  (forallb client_level ms = true -> consistent config (store w)).
Proof.
  intros w. split; [|split].
  - apply (after_all_keeps env config ms (fresh config)), keeps_new.
  - intros w0 m. apply after_read_only.
  - intros Hms.
    apply (after_all_consistent env config ms (fresh config) Hms), consistent_new.
Qed.

Lemma client_stays_consistent_witness :
  let ms := [M_initialize; M_encryptU32 7 sample_options; M_userDecrypt request_a;
             M_dispose; M_initialize] in
  let w := after_all env_ok (fresh sample_config) ms in
  consistent sample_config (store w) /\
  store (after env_ok w (M_userDecrypt request_a)) = store w.
Proof.
  intros ms w.
  destruct (client_stays_consistent env_ok sample_config ms) as (_ & H2 & H3).
  split; [apply H3; reflexivity|apply H2; reflexivity].
Defined.

(** The flags do not agree once a service is initialized on its own. *)
Example service_initialized_on_its_own :
  let w := after_all env_ok (fresh sample_config) [M_encryption_initialize] in
  _isInitialized (store w) = false /\
  enc_initialized (encryption (store w)) = true /\
  dec_initialized (decryption (store w)) = false /\
  instance (encryption (store w)) = VObj 1.
Proof. vm_compute. repeat split. Qed.

(** ** Services that are not initialized *)


